(** * Batch packing and order recovery of [inference.py]

    A shallow embedding of the data-shaping code of the Tacotron 2 inference
    script: [pad_sequences] (sort by length, right zero-pad, stack), the
    selection of the text lines in [main], the [MeasureTime] context manager
    and the tail of [main] that trims the mels, restores the request order and
    saves their concatenation.

    Python exceptions are kept by class name, tensors are lists (a 2-D tensor
    is a list of rows), and the library calls the script makes ([torch.sort],
    the encoder, the clock) are parameters with the contract their
    documentation gives them. *)

From stdpp Require Import base list strings gmap.
From Stdlib Require Import ZArith Lia Ascii.

Local Open Scope string_scope.
Local Open Scope list_scope.
Local Open Scope Z_scope.

(** ** Exceptions *)

(** A Python exception, identified by the name of its class. *)
Definition exn := string.

Inductive result (A : Type) : Type :=
| Ok (a : A)
| Raise (e : exn).
Arguments Ok {A} a.
Arguments Raise {A} e.

Global Instance result_ret : MRet result := fun _ a => Ok a.
Global Instance result_bind : MBind result := fun _ _ f r =>
  match r with
  | Ok a => f a
  | Raise e => Raise e
  end.

(** [seq[i]] for a non-negative index: [IndexError] out of range. *)
Definition getitem {A} (l : list A) (i : nat) : result A :=
  match l !! i with
  | Some x => Ok x
  | None => Raise "IndexError"
  end.

(** [len(x)] as a Python integer. *)
Definition len {A} (l : list A) : Z := Z.of_nat (length l).

(** ** numpy *)

(** [np.pad(text, [0, w], mode='constant')]: [w] zeros on the right; a
    negative pad width is refused. *)
Definition np_pad (text : list Z) (w : Z) : result (list Z) :=
  if w <? 0 then Raise "ValueError" else Ok (text ++ replicate (Z.to_nat w) 0).

(** [np.stack(rows)] of 1-D arrays: at least one array, all of one shape. *)
Definition np_stack (rows : list (list Z)) : result (list (list Z)) :=
  match rows with
  | [] => Raise "ValueError"
  | r :: _ =>
      if forallb (fun r' => length r' =? length r)%nat rows
      then Ok rows else Raise "ValueError"
  end.

(** ** torch.sort *)

(** The result of [torch.sort(t, dim=0, descending=True)] on a 1-D tensor:
    the sorted values and, for each of them, the index it had in [t]. *)
Definition sort_result : Type := list Z * list nat.

Fixpoint sorted_desc (vals : list Z) : bool :=
  match vals with
  | [] => true
  | x :: rest =>
      match rest with
      | [] => true
      | y :: _ => (y <=? x) && sorted_desc rest
      end
  end.

(** [ids] holds every index below its length, hence each exactly once: it
    is a rearrangement of [0 .. len(ids)-1]. *)
Definition is_permutation (ids : list nat) : bool :=
  forallb (fun k => bool_decide (k ∈ ids)) (seq 0 (length ids)).

(** What the documentation of [torch.sort] promises of its result on [t]:
    the indices are a rearrangement of [0 .. len(t)-1], the values are the
    elements of [t] at those indices, and the values do not increase.  Which
    of two equal elements comes first is left open (no [stable=True] is
    passed). *)
Definition sort_contract (t : list Z) (r : sort_result) : bool :=
  let '(vals, ids) := r in
  (length ids =? length t)%nat
  && is_permutation ids
  && bool_decide (Some <$> vals = (fun i => t !! i) <$> ids)
  && sorted_desc vals.

(** Insertion into a list of (value, index) pairs sorted by value
    descending; [past x y] says whether [x] moves past [y]. *)
Fixpoint insert_desc (past : Z -> Z -> bool) (x : Z * nat) (l : list (Z * nat))
  : list (Z * nat) :=
  match l with
  | [] => [x]
  | y :: l' => if past x.1 y.1 then y :: insert_desc past x l' else x :: l
  end.

Definition sort_desc_with (past : Z -> Z -> bool) (t : list Z) : sort_result :=
  let sorted := foldr (insert_desc past) [] (zip t (seq 0 (length t))) in
  (sorted.*1, sorted.*2).

(** Two sorting routines that meet the contract: one keeps equal elements in
    their input order, the other reverses them. *)
Definition sort_desc_stable : list Z -> sort_result := sort_desc_with Z.ltb.
Definition sort_desc_ties_reversed : list Z -> sort_result := sort_desc_with Z.leb.

(** ** pad_sequences *)

Section pad_sequences.
(** [torch.sort(_, dim=0, descending=True)] *)
Variable torch_sort : list Z -> sort_result.

(** The loop over [range(len(ids_sorted_decreasing))]. *)
Fixpoint pad_rows (sequences : list (list Z)) (max_text_len : Z)
    (ids_sorted_decreasing : list nat) : result (list (list Z)) :=
  match ids_sorted_decreasing with
  | [] => Ok []
  | i :: ids =>
      text ← getitem sequences i;
      row ← np_pad text (max_text_len - len text);
      texts ← pad_rows sequences max_text_len ids;
      Ok (row :: texts)
  end.

(** The lengths go through a [torch.IntTensor] (32-bit); they are kept as
    the integers they are, which is what the tensor holds for any list of
    fewer than 2^31 tokens. *)
Definition pad_sequences (sequences : list (list Z))
  : result (list (list Z) * list Z * list nat) :=
  let '(text_lengths, ids_sorted_decreasing) := torch_sort (len <$> sequences) in
  max_text_len ← getitem text_lengths 0;
  texts ← pad_rows sequences max_text_len ids_sorted_decreasing;
  texts ← np_stack texts;
  Ok (texts, text_lengths, ids_sorted_decreasing).
End pad_sequences.

(** The row built from sequence [s] when the longest has length [m]. *)
Definition padded (m : Z) (s : list Z) : list Z :=
  s ++ replicate (Z.to_nat (m - len s)) 0.

(** The contract of the sort, as propositions. *)
Record sort_ok (t vals : list Z) (ids : list nat) : Prop := {
  sort_ok_length : length ids = length t;
  sort_ok_perm : is_permutation ids = true;
  sort_ok_values : forall p i, ids !! p = Some i -> vals !! p = t !! i;
  sort_ok_vals_length : length vals = length t;
  sort_ok_sorted : sorted_desc vals = true
}.

(** ** Recovering the request order *)

(** [x[..., :stop]]: Python's slice up to [stop] along the last axis.  A
    [stop] beyond the end is clamped to the end and a negative one counts
    from the end; neither raises. *)
Definition slice_to {A} (x : list A) (stop : Z) : list A :=
  if stop <? 0 then take (length x - Z.to_nat (- stop)) x
  else take (Z.to_nat stop) x.

(** [l.index(i)]: the first position holding [i], [ValueError] if none. *)
Definition list_index (l : list nat) (i : nat) : result nat :=
  match list_find (fun x => x = i) l with
  | Some (p, _) => Ok p
  | None => Raise "ValueError"
  end.

(** [[rows[ids.index(i)] for i in range(len(ids))]] *)
Definition recover_order {A} (rows : list A) (ids : list nat) : result (list A) :=
  mapM (fun i => p ← list_index ids i; getitem rows p) (seq 0 (length ids)).

(** [np.concatenate(arrays, axis=-1)]: needs at least one array. *)
Definition np_concatenate {A} (arrays : list (list A)) : result (list A) :=
  match arrays with
  | [] => Raise "ValueError"
  | _ => Ok (concat arrays)
  end.

(** [os.path.join(a, b)] for a relative [b]. *)
Definition os_path_join (a b : string) : string :=
  match String.length a with
  | O => b
  | S n =>
      match String.get n a with
      | Some "/"%char => a +:+ b
      | _ => a +:+ "/" +:+ b
      end
  end.

Section unpack.
(** One output of the engine is a tensor of shape (channels, T); it is
    kept as the list of its T frames, a frame being the column of channel
    values at one time step, so that the last axis is the list itself. *)
Context {frame : Type}.

(** [[mel[:, :length] for mel, length in zip(mels, mel_lengths)]] *)
Definition trim_mels (mels : list (list frame)) (mel_lengths : list Z)
  : list (list frame) :=
  zip_with slice_to mels mel_lengths.

(** Lines 187-189 of [main]. *)
Definition unpack (mels : list (list frame)) (mel_lengths : list Z)
    (ids_sorted_decreasing : list nat) : result (list (list frame)) :=
  recover_order (trim_mels mels mel_lengths) ids_sorted_decreasing.

(** Lines 187-190 of [main]: the files under which [np.save] has stored
    an array, before and after. *)
Definition save_mels (output : string) (mels : list (list frame))
    (mel_lengths : list Z) (ids_sorted_decreasing : list nat)
    (files : gmap string (list frame)) : result (gmap string (list frame)) :=
  mels ← unpack mels mel_lengths ids_sorted_decreasing;
  arr ← np_concatenate mels;
  Ok (<[os_path_join output "eval_mel.npy" := arr]> files).
End unpack.

(** ** Reading the texts *)

(** A [str] is the list of its code points. *)
Abbreviation str := (list Z) (only parsing).

(** [str.isspace] of one character (CPython's [_PyUnicode_IsWhitespace]). *)
Definition isspace (c : Z) : bool :=
  ((9 <=? c) && (c <=? 13)) || ((28 <=? c) && (c <=? 32))
  || (c =? 133) || (c =? 160) || (c =? 5760)
  || ((8192 <=? c) && (c <=? 8202))
  || (c =? 8232) || (c =? 8233) || (c =? 8239) || (c =? 8287) || (c =? 12288).

Fixpoint lstrip (s : str) : str :=
  match s with
  | c :: s' => if isspace c then lstrip s' else s
  | [] => []
  end.

Definition rstrip (s : str) : str := reverse (lstrip (reverse s)).

(** [s.strip()] *)
Definition strip (s : str) : str := rstrip (lstrip s).

(** [l[start::step]] for [start >= 0] and [step >= 1], as CPython builds it:
    the slice length is computed from the clipped bounds, then that many
    items are copied, [step] apart. *)
Definition slice_step {A} (l : list A) (start step : nat) : list A :=
  let stop := length l in
  let start := Nat.min start stop in
  let slicelength :=
    if (start <? stop)%nat then ((stop - start - 1) / step + 1)%nat else 0%nat in
  omap (fun i => l !! (start + i * step)%nat) (seq 0 slicelength).

Section read_texts.
(** [open(args.input_file, encoding=...).readlines()]: the lines of the
    file under the default encoding ([None]) or a named one, or the
    exception raised on the way. *)
Variable readlines : option string -> result (list str).

(** Lines 158-163 of [main]. *)
Definition read_sentences : result (list str) :=
  match readlines None with
  | Ok lines => Ok (strip <$> lines)
  | Raise e =>
      if decide (e = "UnicodeDecodeError")
      then
        match readlines (Some "gbk") with
        | Ok lines => Ok (strip <$> lines)
        | Raise e' => Raise e'
        end
      else Raise e
  end.

(** [texts] as of line 167. *)
Definition read_texts : result (list str) :=
  sentences ← read_sentences;
  Ok (slice_step sentences 1 2).
End read_texts.

Section prepare_input_sequence.
Variable torch_sort : list Z -> sort_result.
(** [text_to_sequence(text, speaker_id, cleaner_names)] *)
Variable text_to_sequence : str -> Z -> list string -> list Z.

Definition prepare_input_sequence (texts : list str) (speaker_id : Z)
  : result (list (list Z) * list Z * list nat) :=
  let sequences :=
    (fun text => text_to_sequence text speaker_id ["basic_cleaners"]) <$> texts in
  pad_sequences torch_sort sequences.
End prepare_input_sequence.

(** ** The timing context manager *)

Section MeasureTime.
(** A reading of [time.perf_counter()], and the difference of two. *)
Variable Time : Type.
Variable time_sub : Time -> Time -> Time.

(** What the timed statement reads and writes: the clock, the grad mode
    of torch, and the dict [measurements] that [main] creates and hands to
    [MeasureTime] (one dict, shared by reference). *)
Record world : Type := World {
  clock : Time;
  grad_enabled : bool;
  measurements : gmap string Time
}.

(** [torch.cuda.synchronize()]: returns once the device is idle. *)
Variable cuda_synchronize : world -> world.

(** A statement: it changes the world and completes or raises. *)
Definition stmt (A : Type) : Type := world -> world * result A.

(** The two methods of a context manager.  [enter] gives the object as
    [__enter__] leaves it; [exit] gets the exception in flight, if any,
    and answers whether to swallow it. *)
Record context_manager (Self : Type) : Type := {
  cm_enter : Self -> stmt Self;
  cm_exit : Self -> option exn -> stmt bool
}.
Arguments cm_enter {Self}.
Arguments cm_exit {Self}.

(** [with mgr: body].  [None] is returned when the body raised and
    [__exit__] swallowed the exception. *)
Definition with_stmt {Self A} (cm : context_manager Self) (mgr : Self)
    (body : stmt A) : stmt (option A) := fun w =>
  match cm_enter cm mgr w with
  | (w1, Raise e) => (w1, Raise e)
  | (w1, Ok mgr1) =>
      match body w1 with
      | (w2, Ok a) =>
          match cm_exit cm mgr1 None w2 with
          | (w3, Ok _) => (w3, Ok (Some a))
          | (w3, Raise e) => (w3, Raise e)
          end
      | (w2, Raise e) =>
          match cm_exit cm mgr1 (Some e) w2 with
          | (w3, Ok true) => (w3, Ok None)
          | (w3, Ok false) => (w3, Raise e)
          | (w3, Raise e') => (w3, Raise e')
          end
      end
  end.

(** An instance of [MeasureTime]; [self.measurements] is the dict of the
    world. *)
Record MeasureTime : Type := {
  key : string;
  t0 : option Time
}.

Definition MeasureTime_init (key : string) : MeasureTime :=
  {| key := key; t0 := None |}.

Definition MeasureTime_enter (self : MeasureTime) : stmt MeasureTime := fun w =>
  let w := cuda_synchronize w in
  (w, Ok {| key := key self; t0 := Some (clock w) |}).

Definition MeasureTime_exit (self : MeasureTime) (exc : option exn)
  : stmt bool := fun w =>
  let w := cuda_synchronize w in
  match t0 self with
  | None => (w, Raise "AttributeError")
  | Some t =>
      (World (clock w) (grad_enabled w)
         (<[key self := time_sub (clock w) t]> (measurements w)),
       Ok false)
  end.

Definition MeasureTime_cm : context_manager MeasureTime :=
  {| cm_enter := MeasureTime_enter; cm_exit := MeasureTime_exit |}.

(** [torch.no_grad()]: grad mode off inside, the previous mode back on the
    way out; it swallows nothing. *)
Definition no_grad_cm : context_manager bool :=
  {| cm_enter := fun _ w =>
       (World (clock w) false (measurements w), Ok (grad_enabled w));
     cm_exit := fun prev _ w =>
       (World (clock w) prev (measurements w), Ok false) |}.

(** Lines 175-176 of [main]:
    [with torch.no_grad(), MeasureTime(measurements, "tacotron2_time"):]
    around the call of [model.infer]. *)
Definition timed_infer {A} (infer : stmt A) : stmt (option A) := fun w =>
  match with_stmt no_grad_cm true
          (with_stmt MeasureTime_cm (MeasureTime_init "tacotron2_time") infer) w with
  | (w', Ok r) => (w', Ok (mjoin r))
  | (w', Raise e) => (w', Raise e)
  end.

End MeasureTime.

Arguments World {Time}.
Arguments clock {Time}.
Arguments grad_enabled {Time}.
Arguments measurements {Time}.
Arguments cm_enter {Time Self}.
Arguments cm_exit {Time Self}.
Arguments with_stmt {Time Self A}.
Arguments MeasureTime_init {Time}.
Arguments MeasureTime_cm {Time}.
Arguments no_grad_cm {Time}.
Arguments timed_infer {Time} _ _ {A}.

(** ** main *)

(** The label line and the text line of each entry of the input file, one
    after the other. *)
Definition interleave {A} (pairs : list (A * A)) : list A :=
  flat_map (fun p => [p.1; p.2]) pairs.

(** The options of [parse_args], as [parser.parse_known_args()] returns
    them. *)
Record Args : Type := {
  input_file : string;
  output : string;
  checkpoint : string;
  speaker_id : Z;
  sampling_rate : Z;
  amp_run : bool;
  log_file : string;
  include_warmup : bool;
  stft_hop_length : Z
}.

(** The defaults that [parse_args] declares. *)
Definition default_args : Args := {|
  input_file := "text.txt";
  output := "outputs";
  checkpoint := "logs/checkpoint_latest.pt";
  speaker_id := 0;
  sampling_rate := 22050;
  amp_run := false;
  log_file := "nvlog.json";
  include_warmup := false;
  stft_hop_length := 275
|}.

Section main.
Context {Time frame Model Namespace : Type}.
Variable time_sub : Time -> Time -> Time.
Variable cuda_synchronize : world Time -> world Time.
(** [t == 0.0], and [n / t] for a [t] that is not zero. *)
Variable time_is_zero : Time -> bool.
Variable div_by_time : Z -> Time -> Time.

Variable torch_sort : list Z -> sort_result.
Variable text_to_sequence : list Z -> Z -> list string -> list Z.
(** [open(file, encoding=...).readlines()] *)
Variable readlines : string -> option string -> result (list (list Z)).
(** [os.makedirs(path, exist_ok=True)] *)
Variable makedirs : string -> result unit.

(** [parse_tacotron2_args(parser, add_help=False)] and the second
    [parser.parse_known_args()]: the namespace of the extended parser, and
    its [amp_run]. *)
Variable parse_tacotron2_args : Args -> result Namespace.
Variable ns_amp_run : Namespace -> bool.
Variable get_tacotron2_model : Namespace -> Z -> bool -> result Model.
(** [model.restore_checkpoint(path)] and [model.eval()], giving the model
    as they leave it. *)
Variable restore_checkpoint : Model -> string -> result Model.
Variable model_eval : Model -> Model.
(** [model.infer(sequences, text_lengths)], of which [main] keeps the mels
    and their lengths. *)
Variable infer :
  Model -> list (list Z) -> list Z -> stmt Time (list (list frame) * list Z).
(** [torch.randint(low=0, high=148, size=(1,50), dtype=torch.long).cuda()] *)
Variable randint_cuda : result (list (list Z)).

(** The name [amp] is bound nowhere (its import is commented out), so the
    branch of [args.amp_run] ends in a [NameError]. *)
Definition load_and_setup_model (args : Args) : result Model :=
  let checkpoint_path := checkpoint args in
  args ← parse_tacotron2_args args;
  model ← get_tacotron2_model args 4 false;
  model ← restore_checkpoint model checkpoint_path;
  let model := model_eval model in
  if ns_amp_run args then Raise "NameError" else Ok model.

(** Lines 150-156 of [main].  The name [sequence] is bound nowhere, so the
    warm-up stops with a [NameError] before its loop. *)
Definition warmup (args : Args) : result unit :=
  if include_warmup args then
    sequences ← randint_cuda;
    Raise "NameError"
  else Ok ().

(** What a run of [main] leaves behind: the world of the timed statement,
    the arrays stored by [np.save], by path, and the metric values given to
    [LOGGER.log], in order. *)
Record run : Type := Run {
  run_world : world Time;
  run_files : gmap string (list frame);
  run_log : list (string * Time)
}.

(** [mels.size(0) * mels.size(2)]: rows times the width the rows share. *)
Definition mels_size_0_2 (mels : list (list frame)) : Z :=
  len mels * match mels with [] => 0 | mel :: _ => len mel end.

(** Lines 145-190 of [main].  The calls that configure and close the
    logger, [log_hardware] and [log_args] take no part in the data and are
    left out. *)
Definition main (args : Args) (r : run) : run * result unit :=
  match load_and_setup_model args with
  | Raise e => (r, Raise e)
  | Ok model =>
  match warmup args with
  | Raise e => (r, Raise e)
  | Ok _ =>
  match read_sentences (readlines (input_file args)) with
  | Raise e => (r, Raise e)
  | Ok sentences =>
  match makedirs (output args) with
  | Raise e => (r, Raise e)
  | Ok _ =>
  let texts := slice_step sentences 1 2 in
  let w := World (clock (run_world r)) (grad_enabled (run_world r)) ∅ in
  match prepare_input_sequence torch_sort text_to_sequence texts (speaker_id args) with
  | Raise e => (Run w (run_files r) (run_log r), Raise e)
  | Ok (sequences, text_lengths, ids_sorted_decreasing) =>
  match timed_infer time_sub cuda_synchronize
          (infer model sequences text_lengths) w with
  | (w, Raise e) => (Run w (run_files r) (run_log r), Raise e)
  | (w, Ok None) => (Run w (run_files r) (run_log r), Raise "UnboundLocalError")
  | (w, Ok (Some (mels, mel_lengths))) =>
  match measurements w !! "tacotron2_time" with
  | None => (Run w (run_files r) (run_log r), Raise "KeyError")
  | Some t =>
  if time_is_zero t
  then (Run w (run_files r) (run_log r), Raise "ZeroDivisionError")
  else
    let tacotron2_infer_perf := div_by_time (mels_size_0_2 mels) t in
    let log := run_log r ++ [("tacotron2_frames_per_sec", tacotron2_infer_perf);
                             ("tacotron2_latency", t); ("latency", t)] in
    match save_mels (output args) mels mel_lengths ids_sorted_decreasing
            (run_files r) with
    | Raise e => (Run w (run_files r) log, Raise e)
    | Ok files => (Run w files log, Ok ())
    end
  end end end end end end end.
End main.

Arguments Run {Time frame}.
Arguments run_world {Time frame}.
Arguments run_files {Time frame}.
Arguments run_log {Time frame}.

(** ** Stand-ins for the collaborators of main *)

(** A synchronisation that takes one unit of time. *)
Definition tick (w : world Z) : world Z :=
  World (clock w + 1) (grad_enabled w) (measurements w).

(** An engine that takes 40 units of time and returns the batch rows as
    one-channel mels, with the text lengths as their valid lengths. *)
Definition echo_infer (model : unit) (sequences : list (list Z))
    (text_lengths : list Z) : stmt Z (list (list Z) * list Z) := fun w =>
  (World (clock w + 40) true (measurements w), Ok (sequences, text_lengths)).

(** An engine that fails after 40 units of time. *)
Definition failing_infer (model : unit) (sequences : list (list Z))
    (text_lengths : list Z) : stmt Z (list (list Z) * list Z) := fun w =>
  (World (clock w + 40) true (measurements w), Raise "RuntimeError").

(** Two entries: labels "L0", "L1" and texts " hi", "o". *)
Definition sample_lines : list (list Z) :=
  [[76; 48; 10]; [32; 104; 105; 10]; [76; 49; 10]; [111; 10]].

Definition sample_readlines (file : string) (encoding : option string)
  : result (list (list Z)) :=
  if decide (file = "text.txt") then Ok sample_lines
  else if decide (file = "label.txt") then Ok [[76; 48; 10]]
  else Raise "FileNotFoundError".

(** [main] with these stand-ins, the stable sort, an encoder that takes the
    code points as tokens, and integer time. *)
Definition sample_main
    (infer : unit -> list (list Z) -> list Z -> stmt Z (list (list Z) * list Z))
    (args : Args) (r : @run Z Z) : @run Z Z * result unit :=
  main Z.sub tick (Z.eqb 0) Z.div sort_desc_stable (fun text _ _ => text)
    sample_readlines (fun _ => Ok ()) (fun args => Ok args) amp_run
    (fun _ _ _ => Ok ()) (fun model _ => Ok model) (fun model => model)
    infer (Ok [[0]]) args r.

Definition sample_run : @run Z Z := Run (World 100 true ∅) ∅ [].

Definition args_with (input_file : string) (amp_run include_warmup : bool) : Args := {|
  input_file := input_file;
  output := "outputs";
  checkpoint := "logs/checkpoint_latest.pt";
  speaker_id := 0;
  sampling_rate := 22050;
  amp_run := amp_run;
  log_file := "nvlog.json";
  include_warmup := include_warmup;
  stft_hop_length := 275
|}.

(** * Evaluations *)

Example pad_sequences_ex :
  pad_sequences sort_desc_stable [[1;2]; [1;2;3;4]; [1]]
  = Ok ([[1;2;3;4]; [1;2;0;0]; [1;0;0;0]], [4;2;1], [1;0;2]%nat).
Proof. reflexivity. Qed.

Example sort_ties_ex :
  sort_desc_stable [1;1;2] = ([2;1;1], [2;0;1]%nat)
  /\ sort_desc_ties_reversed [1;1;2] = ([2;1;1], [2;1;0]%nat)
  /\ sort_contract [1;1;2] (sort_desc_stable [1;1;2]) = true
  /\ sort_contract [1;1;2] (sort_desc_ties_reversed [1;1;2]) = true.
Proof. repeat split; vm_compute; reflexivity. Qed.

Example unpack_ex :
  unpack [[1;2;3;4]; [1;2;0;0]; [1;0;0;0]] [4;2;1] [1;0;2]%nat
  = Ok [[1;2]; [1;2;3;4]; [1]].
Proof. reflexivity. Qed.

Example slice_to_ex :
  slice_to [1;2;3] 5 = [1;2;3] /\ slice_to [1;2;3] (-1) = [1;2]
  /\ slice_to [1;2;3] (-7) = [] /\ slice_to [1;2;3] 0 = [].
Proof. repeat split. Qed.

Example os_path_join_ex :
  os_path_join "outputs" "eval_mel.npy" = "outputs/eval_mel.npy"
  /\ os_path_join "out/" "eval_mel.npy" = "out/eval_mel.npy"
  /\ os_path_join "" "eval_mel.npy" = "eval_mel.npy".
Proof. repeat split. Qed.

Example strip_ex : strip [32; 9; 104; 105; 32; 33; 13; 10] = [104; 105; 32; 33].
Proof. reflexivity. Qed.

Example slice_step_ex :
  slice_step ["l0"; "t0"; "l1"; "t1"; "l2"] 1 2 = ["t0"; "t1"]
  /\ slice_step ["l0"] 1 2 = [] /\ slice_step ["a"; "b"; "c"; "d"; "e"] 0 3 = ["a"; "d"].
Proof. repeat split. Qed.

(** * Proofs *)

(** ** Facts about the sort contract *)

Lemma sorted_desc_head x vals y :
  sorted_desc (x :: vals) = true -> y ∈ vals -> y <= x.
Proof.
  revert x. induction vals as [|z vals IH]; intros x Hs Hy.
  - inversion Hy.
  - cbn in Hs. apply andb_true_iff in Hs as [Hzx Hs].
    apply Z.leb_le in Hzx.
    apply elem_of_cons in Hy as [->|Hy]; [lia|].
    specialize (IH z Hs Hy). lia.
Qed.

Lemma is_permutation_onto ids k :
  is_permutation ids = true -> (k < length ids)%nat -> k ∈ ids.
Proof.
  unfold is_permutation. rewrite forallb_forall. intros H Hk.
  eapply bool_decide_eq_true, H. apply list_elem_of_In, elem_of_seq. lia.
Qed.

Lemma is_permutation_Permutation ids :
  is_permutation ids = true -> ids ≡ₚ seq 0 (length ids).
Proof.
  intros H. symmetry. apply submseteq_length_Permutation.
  - apply NoDup_submseteq; [apply NoDup_seq|].
    intros k Hk. apply elem_of_seq in Hk. apply is_permutation_onto; [done|lia].
  - by rewrite length_seq.
Qed.

Lemma is_permutation_bound ids k :
  is_permutation ids = true -> k ∈ ids -> (k < length ids)%nat.
Proof.
  intros H Hk. rewrite (is_permutation_Permutation ids H) in Hk.
  apply elem_of_seq in Hk. lia.
Qed.

Lemma is_permutation_inj ids p q k :
  is_permutation ids = true -> ids !! p = Some k -> ids !! q = Some k -> p = q.
Proof.
  intros H. apply NoDup_lookup.
  rewrite (is_permutation_Permutation ids H). apply NoDup_seq.
Qed.

Lemma sort_contract_ok t vals ids :
  sort_contract t (vals, ids) = true -> sort_ok t vals ids.
Proof.
  unfold sort_contract. rewrite !andb_true_iff.
  intros [[[Hlen Hperm] Hv] Hs].
  apply Nat.eqb_eq in Hlen. apply bool_decide_eq_true in Hv.
  split; try done.
  - intros p i Hp. apply (f_equal (fun l => l !! p)) in Hv.
    rewrite !list_lookup_fmap, Hp in Hv. cbn in Hv.
    destruct (vals !! p); cbn in Hv; congruence.
  - apply (f_equal length) in Hv. rewrite !length_fmap in Hv. lia.
Qed.

Lemma sort_ok_onto t vals ids k :
  sort_ok t vals ids -> (k < length t)%nat -> k ∈ ids.
Proof.
  intros H Hk. apply is_permutation_onto; [apply H|].
  by rewrite (sort_ok_length _ _ _ H).
Qed.

Lemma sort_ok_bound t vals ids i :
  sort_ok t vals ids -> i ∈ ids -> (i < length t)%nat.
Proof.
  intros H Hi. apply list_elem_of_lookup in Hi as [p Hp].
  pose proof (sort_ok_values _ _ _ H _ _ Hp) as Hv.
  assert (p < length vals)%nat as Hlt.
  { rewrite (sort_ok_vals_length _ _ _ H), <- (sort_ok_length _ _ _ H).
    by eapply lookup_lt_Some. }
  apply lookup_lt_is_Some in Hlt as [v Hvp]. rewrite Hvp in Hv.
  symmetry in Hv. by eapply lookup_lt_Some.
Qed.

Lemma Permutation_is_permutation ids :
  ids ≡ₚ seq 0 (length ids) -> is_permutation ids = true.
Proof.
  intros H. unfold is_permutation. apply forallb_forall. intros k Hk.
  apply bool_decide_eq_true. rewrite H. by apply list_elem_of_In.
Qed.

Lemma sorted_desc_cons x vals :
  sorted_desc (x :: vals) = true
  <-> (forall y, y ∈ vals -> y <= x) /\ sorted_desc vals = true.
Proof.
  split.
  - intros H. split; [intros y; by apply sorted_desc_head|].
    destruct vals; [done|]. cbn in H. by apply andb_true_iff in H as [_ ?].
  - intros [Hle Hs]. destruct vals as [|y vals]; [done|].
    change (((y <=? x) && sorted_desc (y :: vals)) = true).
    apply andb_true_iff. split; [|done]. apply Z.leb_le, Hle. left.
Qed.

(** ** The two sorting routines keep the contract *)

Section sort_desc_with.
Variable past : Z -> Z -> bool.
Hypothesis past_true : forall x y, past x y = true -> x <= y.
Hypothesis past_false : forall x y, past x y = false -> y <= x.

Lemma insert_desc_perm x l : insert_desc past x l ≡ₚ x :: l.
Proof.
  induction l as [|y l IH]; [done|]. cbn.
  destruct (past x.1 y.1); [|done]. rewrite IH. apply Permutation_swap.
Qed.

Lemma foldr_insert_desc_perm l : foldr (insert_desc past) [] l ≡ₚ l.
Proof.
  induction l as [|x l IH]; [done|]. cbn. by rewrite insert_desc_perm, IH.
Qed.

Lemma insert_desc_sorted x l :
  sorted_desc l.*1 = true -> sorted_desc (insert_desc past x l).*1 = true.
Proof.
  induction l as [|y l IH]; [done|]. intros Hs.
  change ((y :: l).*1) with (y.1 :: l.*1) in Hs.
  apply sorted_desc_cons in Hs as [Hle Hs]. cbn.
  destruct (past x.1 y.1) eqn:Hp.
  - change ((y :: insert_desc past x l).*1) with (y.1 :: (insert_desc past x l).*1).
    apply sorted_desc_cons. split; [|by apply IH].
    intros z Hz. rewrite insert_desc_perm in Hz.
    apply elem_of_cons in Hz as [->|Hz]; [by apply past_true|by apply Hle].
  - change ((x :: y :: l).*1) with (x.1 :: y.1 :: l.*1).
    apply past_false in Hp.
    apply sorted_desc_cons. split.
    + intros z Hz. apply elem_of_cons in Hz as [->|Hz]; [done|].
      specialize (Hle z Hz). lia.
    + by apply sorted_desc_cons.
Qed.

Lemma foldr_insert_desc_sorted l :
  sorted_desc (foldr (insert_desc past) [] l).*1 = true.
Proof. induction l as [|x l IH]; [done|]. cbn. by apply insert_desc_sorted. Qed.

Lemma values_at_indices (t : list Z) (l : list (Z * nat)) :
  Forall (fun x => t !! x.2 = Some x.1) l ->
  Some <$> l.*1 = (fun i => t !! i) <$> l.*2.
Proof. induction 1 as [|x l Hx _ IH]; [done|]. cbn. by rewrite Hx, IH. Qed.

Lemma zip_seq_values (t : list Z) j :
  Forall (fun x => t !! (x.2 - j)%nat = Some x.1) (zip t (seq j (length t))).
Proof.
  apply Forall_forall. intros [v i] Hin.
  apply list_elem_of_lookup in Hin as [p Hp].
  apply lookup_zip_with_Some in Hp as (v' & i' & Heq & Hv & Hi).
  simplify_eq. apply lookup_seq in Hi as [-> _]. cbn.
  by replace (j + p - j)%nat with p by lia.
Qed.

Lemma sort_desc_with_contract (t : list Z) :
  sort_contract t (sort_desc_with past t) = true.
Proof.
  unfold sort_desc_with, sort_contract.
  set (sorted := foldr (insert_desc past) [] (zip t (seq 0 (length t)))).
  assert (sorted ≡ₚ zip t (seq 0 (length t))) as Hperm
    by apply foldr_insert_desc_perm.
  assert (sorted.*2 ≡ₚ seq 0 (length t)) as Hids.
  { rewrite Hperm. rewrite snd_zip; [done|]. by rewrite length_seq. }
  assert (length sorted.*2 = length t) as Hlen.
  { by rewrite Hids, length_seq. }
  rewrite !andb_true_iff. split_and!.
  - by apply Nat.eqb_eq.
  - apply Permutation_is_permutation. by rewrite Hlen.
  - apply bool_decide_eq_true, values_at_indices.
    rewrite Hperm. eapply Forall_impl; [apply (zip_seq_values t 0)|].
    intros x Hx. cbn beta in Hx. by rewrite Nat.sub_0_r in Hx.
  - apply foldr_insert_desc_sorted.
Qed.
End sort_desc_with.

Lemma sort_desc_stable_contract (t : list Z) :
  sort_contract t (sort_desc_stable t) = true.
Proof.
  apply sort_desc_with_contract; intros x y H.
  - apply Z.ltb_lt in H. lia.
  - by apply Z.ltb_ge in H.
Qed.

Lemma sort_desc_ties_reversed_contract (t : list Z) :
  sort_contract t (sort_desc_ties_reversed t) = true.
Proof.
  apply sort_desc_with_contract; intros x y H.
  - by apply Z.leb_le in H.
  - apply Z.leb_gt in H. lia.
Qed.

(** The first sorted value is the largest element of the input. *)
Lemma sort_ok_head_max t vals ids m :
  sort_ok t vals ids -> vals !! 0%nat = Some m ->
  m ∈ t /\ forall x, x ∈ t -> x <= m.
Proof.
  intros H Hm. split.
  - destruct (ids !! 0%nat) as [i|] eqn:Hi.
    + pose proof (sort_ok_values _ _ _ H _ _ Hi) as Hv.
      rewrite Hm in Hv. symmetry in Hv. by eapply list_elem_of_lookup_2.
    + apply lookup_ge_None in Hi. apply lookup_lt_Some in Hm.
      rewrite (sort_ok_length _ _ _ H) in Hi.
      rewrite (sort_ok_vals_length _ _ _ H) in Hm. lia.
  - intros x Hx. apply list_elem_of_lookup in Hx as [k Hk].
    assert (k ∈ ids) as Hin.
    { eapply sort_ok_onto; [done|]. by eapply lookup_lt_Some. }
    apply list_elem_of_lookup in Hin as [p Hp].
    pose proof (sort_ok_values _ _ _ H _ _ Hp) as Hv. rewrite Hk in Hv.
    destruct vals as [|v0 vals']; [done|]. cbn in Hm. simplify_eq.
    destruct p as [|p]; cbn in Hv; [simplify_eq; lia|].
    eapply sorted_desc_head; [apply (sort_ok_sorted _ _ _ H)|].
    by eapply list_elem_of_lookup_2.
Qed.

(** ** Facts about the padding loop *)

Lemma padded_length m s : len s <= m -> len (padded m s) = m.
Proof.
  unfold padded, len. rewrite length_app, length_replicate. unfold len. lia.
Qed.

Lemma padded_prefix m s : take (length s) (padded m s) = s.
Proof. unfold padded. by rewrite take_app_length. Qed.


Lemma pad_rows_ok sequences m ids :
  (forall i, i ∈ ids -> exists s, sequences !! i = Some s /\ len s <= m) ->
  exists texts,
    pad_rows sequences m ids = Ok texts
    /\ length texts = length ids
    /\ (forall r, r ∈ texts -> len r = m)
    /\ forall p i s, ids !! p = Some i -> sequences !! i = Some s ->
         texts !! p = Some (padded m s).
Proof.
  induction ids as [|i ids IH]; intros Hids.
  - exists []. repeat split; try done. intros r Hr. inversion Hr.
  - destruct (Hids i) as (s & Hs & Hle); [left|].
    destruct IH as (texts & Hrows & Hlen & Hw & Hat).
    { intros j Hj. apply Hids. by right. }
    exists (padded m s :: texts). cbn.
    unfold getitem. rewrite Hs. cbn. unfold np_pad.
    destruct (Z.ltb_spec (m - len s) 0); [lia|]. cbn.
    rewrite Hrows. cbn. repeat split.
    + by rewrite Hlen.
    + intros r Hr. apply elem_of_cons in Hr as [->|Hr]; [by apply padded_length|by apply Hw].
    + intros [|p] j s' Hp Hj; cbn in *; simplify_eq; [done|]. by eapply Hat.
Qed.

Lemma np_stack_ok m rows :
  rows <> [] -> (forall r, r ∈ rows -> len r = m) -> np_stack rows = Ok rows.
Proof.
  intros Hne Hw. destruct rows as [|r rows]; [done|]. unfold np_stack.
  replace (forallb _ _) with true; [done|]. symmetry.
  apply forallb_forall. intros r' Hr'. apply list_elem_of_In in Hr'.
  apply Nat.eqb_eq. pose proof (Hw r' Hr'). pose proof (Hw r (list_elem_of_here _ _)).
  unfold len in *. lia.
Qed.

(** What [pad_sequences] returns on a non-empty request set when the sort
    keeps its contract. *)
Lemma pad_sequences_ok torch_sort sequences :
  sequences <> [] ->
  sort_contract (len <$> sequences) (torch_sort (len <$> sequences)) = true ->
  exists texts text_lengths ids L_max,
    pad_sequences torch_sort sequences = Ok (texts, text_lengths, ids)
    /\ torch_sort (len <$> sequences) = (text_lengths, ids)
    /\ sort_ok (len <$> sequences) text_lengths ids
    /\ text_lengths !! 0%nat = Some L_max
    /\ length texts = length sequences
    /\ (forall r, r ∈ texts -> len r = L_max)
    /\ forall p i s, ids !! p = Some i -> sequences !! i = Some s ->
         texts !! p = Some (padded L_max s).
Proof.
  intros Hne Hc. unfold pad_sequences.
  destruct (torch_sort (len <$> sequences)) as [vals ids] eqn:Hsort.
  apply sort_contract_ok in Hc.
  pose proof (sort_ok_vals_length _ _ _ Hc) as Hvl.
  pose proof (sort_ok_length _ _ _ Hc) as Hil.
  rewrite length_fmap in Hvl, Hil.
  destruct vals as [|m vals'] eqn:Hvals.
  { destruct sequences; [done|cbn in Hvl; lia]. }
  rewrite <- Hvals in *. assert (vals !! 0%nat = Some m) as Hm by by subst.
  destruct (sort_ok_head_max _ _ _ _ Hc Hm) as [_ Hmax].
  destruct (pad_rows_ok sequences m ids) as (texts & Hrows & Hlen & Hw & Hat).
  { intros i Hi. apply (sort_ok_bound _ _ _ _ Hc) in Hi. rewrite length_fmap in Hi.
    apply lookup_lt_is_Some in Hi as [s Hs]. exists s. split; [done|].
    apply Hmax. apply list_elem_of_fmap. exists s. split; [done|].
    by eapply list_elem_of_lookup_2. }
  exists texts, vals, ids, m.
  unfold getitem. rewrite Hm. cbn. rewrite Hrows. cbn.
  assert (texts <> []) as Htexts.
  { intros ->. destruct sequences; [done|]. cbn in Hlen, Hil. lia. }
  rewrite (np_stack_ok m) by done.
  cbn. split_and!; try done. congruence.
Qed.

(** ** Facts about the order recovery *)

Lemma mapM_cons {A B} (f : A -> result B) x l :
  mapM f (x :: l) = y ← f x; k ← mapM f l; Ok (y :: k).
Proof. reflexivity. Qed.

Lemma mapM_result_ok {A B} (f : A -> result B) (l : list A) :
  (forall x, x ∈ l -> exists y, f x = Ok y) ->
  exists ys, mapM f l = Ok ys
    /\ length ys = length l
    /\ forall i x, l !! i = Some x -> exists y, ys !! i = Some y /\ f x = Ok y.
Proof.
  induction l as [|x l IH]; intros Hf.
  - exists []. repeat split; try done.
  - destruct (Hf x) as [y Hy]; [left|].
    destruct IH as (ys & Hys & Hlen & Hat).
    { intros x' Hx'. apply Hf. by right. }
    exists (y :: ys). rewrite mapM_cons, Hy, Hys. cbn. repeat split.
    + by rewrite Hlen.
    + intros [|i] x' Hi; cbn in *; simplify_eq; eauto.
Qed.

Lemma list_index_ok ids k :
  k ∈ ids -> exists p, list_index ids k = Ok p /\ ids !! p = Some k.
Proof.
  intros Hk. unfold list_index.
  destruct (list_find_elem_of (fun x => x = k) ids k Hk eq_refl) as [[p x] Hp].
  rewrite Hp. exists p. split; [done|].
  apply list_find_Some in Hp as (Hp & -> & _). done.
Qed.

(** Position [k] of the recovered list holds the row at the sorted position
    where index [k] stands. *)
Lemma recover_order_ok {A} (rows : list A) ids :
  (forall k, (k < length ids)%nat -> k ∈ ids) ->
  (length ids <= length rows)%nat ->
  exists outs, recover_order rows ids = Ok outs
    /\ length outs = length ids
    /\ forall k, (k < length ids)%nat ->
         exists p row, ids !! p = Some k /\ rows !! p = Some row
           /\ outs !! k = Some row.
Proof.
  intros Honto Hrows. unfold recover_order.
  set (f := fun i => p ← list_index ids i; getitem rows p).
  assert (Hf : forall k, (k < length ids)%nat ->
            exists p row, ids !! p = Some k /\ rows !! p = Some row /\ f k = Ok row).
  { intros k Hk. destruct (list_index_ok ids k (Honto k Hk)) as (p & Hp & Hpk).
    assert (p < length rows)%nat as Hlt by (apply lookup_lt_Some in Hpk; lia).
    apply lookup_lt_is_Some in Hlt as [row Hrow].
    exists p, row. split_and!; try done.
    unfold f. rewrite Hp. cbn. unfold getitem. by rewrite Hrow. }
  destruct (mapM_result_ok f (seq 0 (length ids))) as (outs & Hm & Hlen & Hat).
  { intros k Hk. apply elem_of_seq in Hk.
    destruct (Hf k) as (p & row & _ & _ & Hfk); [lia|]. eauto. }
  exists outs. split; [done|]. split; [by rewrite Hlen, length_seq|].
  intros k Hk. destruct (Hf k Hk) as (p & row & Hp & Hrow & Hfk).
  destruct (Hat k k) as (y & Hy & Hfy); [by apply lookup_seq_lt|].
  exists p, row. split_and!; try done. congruence.
Qed.

(** ** The padded batch *)



(** ** Round trip *)

(** The tail of [main] on any engine output with one row and one length per
    request. *)
Lemma unpack_ok {frame} (mels : list (list frame)) mel_lengths ids :
  is_permutation ids = true ->
  length mels = length ids -> length mel_lengths = length ids ->
  exists outs, unpack mels mel_lengths ids = Ok outs
    /\ length outs = length ids
    /\ forall p k, ids !! p = Some k ->
         exists mel n, mels !! p = Some mel /\ mel_lengths !! p = Some n
           /\ outs !! k = Some (slice_to mel n).
Proof.
  intros Hperm Hm Hl. unfold unpack.
  destruct (recover_order_ok (trim_mels mels mel_lengths) ids)
    as (outs & Hrec & Hlen & Hat).
  { intros k Hk. by apply is_permutation_onto. }
  { unfold trim_mels. rewrite length_zip_with. lia. }
  exists outs. split_and!; try done.
  intros p k Hp.
  destruct (Hat k) as (p' & row & Hp' & Hrow & Hout).
  { apply is_permutation_bound; [done|]. by eapply list_elem_of_lookup_2. }
  assert (p' = p) as -> by by eapply is_permutation_inj.
  apply lookup_zip_with_Some in Hrow as (mel & n & -> & Hmel & Hn).
  eauto.
Qed.

(** C3. For every N >= 1 sequences of any lengths (equal ones included) and
    every result of the sort that keeps its contract, the index lookup of
    the unpacking step undoes the sort permutation: applied to the
    permutation itself it gives back [0 .. N-1], and applied to the trimmed
    engine rows it puts at output position [k] the trimmed row of the sorted
    position whose batch row was built from input [k]. *)
Theorem roundtrip_restores_order {frame} torch_sort (sequences : list (list Z))
    (mels : list (list frame)) (mel_lengths : list Z) :
  sequences <> [] ->
  sort_contract (len <$> sequences) (torch_sort (len <$> sequences)) = true ->
  length mels = length sequences ->
  length mel_lengths = length sequences ->
  exists texts text_lengths ids L_max outs,
    pad_sequences torch_sort sequences = Ok (texts, text_lengths, ids)
    /\ text_lengths !! 0%nat = Some L_max
    /\ recover_order ids ids = Ok (seq 0 (length sequences))
    /\ unpack mels mel_lengths ids = Ok outs
    /\ length outs = length sequences
    /\ forall k src, sequences !! k = Some src ->
         exists p mel n,
           ids !! p = Some k
           /\ texts !! p = Some (src ++ replicate (Z.to_nat (L_max - len src)) 0)
           /\ mels !! p = Some mel /\ mel_lengths !! p = Some n
           /\ outs !! k = Some (slice_to mel n).
Proof.
  intros Hne Hc Hm Hl.
  destruct (pad_sequences_ok torch_sort sequences Hne Hc)
    as (texts & lens & ids & L & Hpad & _ & Hok & HL & Hlen & Hw & Hat).
  pose proof (sort_ok_length _ _ _ Hok) as Hil. rewrite length_fmap in Hil.
  pose proof (sort_ok_perm _ _ _ Hok) as Hperm.
  destruct (unpack_ok mels mel_lengths ids Hperm) as (outs & Hun & Hol & Hout);
    [congruence..|].
  exists texts, lens, ids, L, outs. split_and!; try done.
  - destruct (recover_order_ok ids ids) as (back & Hrec & Hbl & Hback).
    { intros k Hk. by apply is_permutation_onto. }
    { done. }
    rewrite Hrec. f_equal. apply list_eq_same_length with (length ids).
    + rewrite ?length_seq; congruence.
    + rewrite ?length_seq; congruence.
    + intros k x y Hk Hx Hy.
      destruct (Hback k Hk) as (p & row & Hp & Hrow & Hbk).
      apply lookup_seq in Hy as [-> _]. cbn. congruence.
  - congruence.
  - intros k src Hsrc.
    assert (k ∈ ids) as Hk.
    { eapply sort_ok_onto; [done|]. rewrite length_fmap. by eapply lookup_lt_Some. }
    apply list_elem_of_lookup in Hk as [p Hp].
    destruct (Hout p k Hp) as (mel & n & Hmel & Hn & Hk).
    exists p, mel, n. split_and!; try done.
    by apply (Hat p k src).
Qed.

Lemma roundtrip_restores_order_witness :
  exists texts text_lengths ids L_max outs,
    pad_sequences sort_desc_stable [[5;6]; [7;8]; [9;10;11]]
      = Ok (texts, text_lengths, ids)
    /\ text_lengths !! 0%nat = Some L_max
    /\ recover_order ids ids = Ok (seq 0 3)
    /\ unpack [["a"; "b"; "c"]; ["d"; "e"; "f"]; ["g"; "h"; "i"]] [3; 1; 2] ids
         = Ok outs
    /\ length outs = 3%nat
    /\ forall k src, [[5;6]; [7;8]; [9;10;11]] !! k = Some src ->
         exists p mel n,
           ids !! p = Some k
           /\ texts !! p = Some (src ++ replicate (Z.to_nat (L_max - len src)) 0)
           /\ [["a"; "b"; "c"]; ["d"; "e"; "f"]; ["g"; "h"; "i"]] !! p = Some mel
           /\ [3; 1; 2] !! p = Some n
           /\ outs !! k = Some (slice_to mel n).
Proof.
  apply (roundtrip_restores_order sort_desc_stable [[5;6]; [7;8]; [9;10;11]]
           [["a"; "b"; "c"]; ["d"; "e"; "f"]; ["g"; "h"; "i"]] [3; 1; 2]).
  - discriminate.
  - vm_compute. reflexivity.
  - reflexivity.
  - reflexivity.
Defined.

(** ** Equal lengths *)





(** ** The end-to-end scenario *)

(** Lengths 2, 4, 1 are distinct, so the contract leaves the sort one
    result. *)
Lemma sort_contract_2_4_1 (r : sort_result) :
  sort_contract [2; 4; 1] r = true -> r = ([4; 2; 1], [1; 0; 2]%nat).
Proof.
  destruct r as [vals ids]. unfold sort_contract. rewrite !andb_true_iff.
  intros [[[Hlen Hperm] Hv] Hs]. apply bool_decide_eq_true in Hv.
  destruct ids as [|a [|b [|c [|? ?]]]]; try discriminate Hlen.
  destruct vals as [|x [|y [|z [|? ?]]]]; try discriminate Hv.
  destruct a as [|[|[|a]]], b as [|[|[|b]]], c as [|[|[|c]]];
    try discriminate Hv; try discriminate Hperm;
    cbn in Hv; simplify_eq; try discriminate Hs; reflexivity.
Qed.

(** C1. The three inputs [1,2], [1,2,3,4], [1] are packed into the rows
    [1,2,3,4], [1,2,0,0], [1,0,0,0] (so L_max = 4) with length vector
    [4,2,1] and permutation [1,0,2]; a mock engine that returns each row
    unchanged, as a one-channel output, with valid lengths [4,2,1] is
    unpacked to [[1,2], [1,2,3,4], [1]]. *)
Theorem end_to_end_scenario torch_sort :
  sort_contract [2; 4; 1] (torch_sort [2; 4; 1]) = true ->
  exists texts text_lengths ids,
    pad_sequences torch_sort [[1; 2]; [1; 2; 3; 4]; [1]]
      = Ok (texts, text_lengths, ids)
    /\ texts = [[1; 2; 3; 4]; [1; 2; 0; 0]; [1; 0; 0; 0]]
    /\ text_lengths = [4; 2; 1]
    /\ text_lengths !! 0%nat = Some 4
    /\ ids = [1; 0; 2]%nat
    /\ unpack texts [4; 2; 1] ids = Ok [[1; 2]; [1; 2; 3; 4]; [1]].
Proof.
  intros Hc. apply sort_contract_2_4_1 in Hc.
  exists [[1; 2; 3; 4]; [1; 2; 0; 0]; [1; 0; 0; 0]], [4; 2; 1], [1; 0; 2]%nat.
  split_and!; try reflexivity.
  unfold pad_sequences.
  change (len <$> [[1; 2]; [1; 2; 3; 4]; [1]]) with [2; 4; 1].
  rewrite Hc. reflexivity.
Qed.

Lemma end_to_end_scenario_witness :
  exists texts text_lengths ids,
    pad_sequences sort_desc_stable [[1; 2]; [1; 2; 3; 4]; [1]]
      = Ok (texts, text_lengths, ids)
    /\ texts = [[1; 2; 3; 4]; [1; 2; 0; 0]; [1; 0; 0; 0]]
    /\ text_lengths = [4; 2; 1]
    /\ text_lengths !! 0%nat = Some 4
    /\ ids = [1; 0; 2]%nat
    /\ unpack texts [4; 2; 1] ids = Ok [[1; 2]; [1; 2; 3; 4]; [1]].
Proof.
  apply (end_to_end_scenario sort_desc_stable). vm_compute. reflexivity.
Defined.

(** ** Inputs the packer does not guard against *)

(** C5, as stated, fails: on an empty request set the failure is the
    [IndexError] of [text_lengths[0]], and no [EmptyBatchError] exists in
    the script. *)
Lemma empty_batch_counterexample :
  sort_contract [] (sort_desc_stable []) = true
  /\ pad_sequences sort_desc_stable [] = Raise "IndexError"
  /\ pad_sequences sort_desc_stable [] <> Raise "EmptyBatchError".
Proof. split_and!; [vm_compute; reflexivity | reflexivity | discriminate]. Qed.

(** C5, amended. Packing an empty request set fails: reading
    [text_lengths[0]] of the empty sorted tensor raises [IndexError]. *)
Theorem pad_sequences_empty torch_sort :
  sort_contract [] (torch_sort []) = true ->
  pad_sequences torch_sort [] = Raise "IndexError".
Proof.
  intros Hc. unfold pad_sequences. cbn [fmap list_fmap].
  destruct (torch_sort []) as [vals ids].
  apply sort_contract_ok, sort_ok_vals_length in Hc.
  destruct vals; [reflexivity|discriminate Hc].
Qed.

Lemma pad_sequences_empty_witness :
  pad_sequences sort_desc_stable [] = Raise "IndexError".
Proof. apply (pad_sequences_empty sort_desc_stable). vm_compute. reflexivity. Defined.

(** C6, as stated, fails: a sequence of length 0 is packed like any other,
    into a row of pad values. *)
Lemma zero_length_counterexample :
  sort_contract [2; 0] (sort_desc_stable [2; 0]) = true
  /\ pad_sequences sort_desc_stable [[1; 2]; []]
     = Ok ([[1; 2]; [0; 0]], [2; 0], [0; 1]%nat)
  /\ pad_sequences sort_desc_stable [[1; 2]; []] <> Raise "InvalidSequenceError".
Proof. split_and!; [vm_compute; reflexivity | reflexivity | discriminate]. Qed.

(** C6, amended. Packing does not fail on an input sequence of length 0:
    the sequence at original index [k] gets a sorted position [p] whose
    length entry is 0 and whose row is [L_max] pad values. *)
Theorem pad_sequences_zero_length torch_sort (sequences : list (list Z)) k :
  sort_contract (len <$> sequences) (torch_sort (len <$> sequences)) = true ->
  sequences !! k = Some [] ->
  exists texts text_lengths ids L_max p,
    pad_sequences torch_sort sequences = Ok (texts, text_lengths, ids)
    /\ text_lengths !! 0%nat = Some L_max
    /\ ids !! p = Some k
    /\ text_lengths !! p = Some 0
    /\ texts !! p = Some (replicate (Z.to_nat L_max) 0).
Proof.
  intros Hc Hk.
  assert (sequences <> []) as Hne by (intros ->; done).
  destruct (pad_sequences_ok torch_sort sequences Hne Hc)
    as (texts & lens & ids & L & Hpad & _ & Hok & HL & Hlen & Hw & Hat).
  assert (k ∈ ids) as Hin.
  { eapply sort_ok_onto; [done|]. rewrite length_fmap. by eapply lookup_lt_Some. }
  apply list_elem_of_lookup in Hin as [p Hp].
  exists texts, lens, ids, L, p. split_and!; try done.
  - by rewrite (sort_ok_values _ _ _ Hok _ _ Hp), list_lookup_fmap, Hk.
  - rewrite (Hat p k [] Hp Hk). unfold padded, len. cbn. by rewrite Z.sub_0_r.
Qed.

Lemma pad_sequences_zero_length_witness :
  exists texts text_lengths ids L_max p,
    pad_sequences sort_desc_stable [[1; 2]; []; [3]]
      = Ok (texts, text_lengths, ids)
    /\ text_lengths !! 0%nat = Some L_max
    /\ ids !! p = Some 1%nat
    /\ text_lengths !! p = Some 0
    /\ texts !! p = Some (replicate (Z.to_nat L_max) 0).
Proof.
  apply (pad_sequences_zero_length sort_desc_stable [[1; 2]; []; [3]] 1%nat).
  - vm_compute. reflexivity.
  - reflexivity.
Defined.

(** ** Valid lengths beyond the row *)

Lemma slice_to_nonneg {A} (x : list A) n :
  0 <= n -> slice_to x n = take (Z.to_nat n) x.
Proof. intros Hn. unfold slice_to. by destruct (Z.ltb_spec n 0); [lia|]. Qed.

Lemma slice_to_clamp {A} (x : list A) n : len x <= n -> slice_to x n = x.
Proof.
  intros Hn. unfold len in Hn. rewrite slice_to_nonneg by lia.
  apply take_ge. lia.
Qed.

(** C7, as stated, fails: a valid length beyond the width of its row raises
    nothing, the slice stops at the end of the row. *)
Lemma length_overflow_counterexample :
  unpack [[1; 2; 3]; [4; 5; 6]] [5; 2] [0; 1]%nat = Ok [[1; 2; 3]; [4; 5]]
  /\ unpack [[1; 2; 3]; [4; 5; 6]] [5; 2] [0; 1]%nat
     <> Raise "LengthOverflowError".
Proof. split; [reflexivity | discriminate]. Qed.

(** C7, amended. Unpacking compares no valid length with the row width:
    with as many rows and lengths as permutation entries it succeeds for
    every non-negative reported length, and a row whose reported length is
    at least its width is returned whole. *)
Theorem unpack_overflow_clamped {frame} (mels : list (list frame))
    (mel_lengths : list Z) (ids : list nat) :
  is_permutation ids = true ->
  length mels = length ids -> length mel_lengths = length ids ->
  exists outs,
    unpack mels mel_lengths ids = Ok outs
    /\ forall p k mel n,
         ids !! p = Some k -> mels !! p = Some mel -> mel_lengths !! p = Some n ->
         (0 <= n -> outs !! k = Some (take (Z.to_nat n) mel))
         /\ (len mel <= n -> outs !! k = Some mel).
Proof.
  intros Hperm Hm Hl.
  destruct (unpack_ok mels mel_lengths ids Hperm Hm Hl) as (outs & Hun & _ & Hout).
  exists outs. split; [done|].
  intros p k mel n Hp Hmel Hn.
  destruct (Hout p k Hp) as (mel' & n' & ? & ? & Hk). simplify_eq.
  split; intros Hle; rewrite Hk; f_equal.
  - by apply slice_to_nonneg.
  - by apply slice_to_clamp.
Qed.

Lemma unpack_overflow_clamped_witness :
  exists outs,
    unpack [[1; 2; 3]; [4; 5; 6]] [5; 2] [1; 0]%nat = Ok outs
    /\ forall p k mel n,
         [1; 0]%nat !! p = Some k ->
         [[1; 2; 3]; [4; 5; 6]] !! p = Some mel -> [5; 2] !! p = Some n ->
         (0 <= n -> outs !! k = Some (take (Z.to_nat n) mel))
         /\ (len mel <= n -> outs !! k = Some mel).
Proof.
  apply (unpack_overflow_clamped [[1; 2; 3]; [4; 5; 6]] [5; 2] [1; 0]%nat).
  - vm_compute. reflexivity.
  - reflexivity.
  - reflexivity.
Defined.

(** ** The saved artifact *)

(** C10. After trimming and restoring the request order, one array is
    saved, under [eval_mel.npy] in the output folder: the concatenation
    along the time axis of the N trimmed outputs in request order, output
    [k] being the trimmed row of the sorted position that holds index [k].
    No other file is written. *)
Theorem save_mels_single_artifact {frame} (output : string)
    (mels : list (list frame)) (mel_lengths : list Z) (ids : list nat)
    (files : gmap string (list frame)) :
  ids <> [] ->
  is_permutation ids = true ->
  length mels = length ids -> length mel_lengths = length ids ->
  exists outs files',
    unpack mels mel_lengths ids = Ok outs
    /\ length outs = length ids
    /\ (forall p k, ids !! p = Some k ->
          exists mel n, mels !! p = Some mel /\ mel_lengths !! p = Some n
            /\ outs !! k = Some (slice_to mel n))
    /\ save_mels output mels mel_lengths ids files = Ok files'
    /\ files' !! os_path_join output "eval_mel.npy" = Some (concat outs)
    /\ forall path, path <> os_path_join output "eval_mel.npy" ->
         files' !! path = files !! path.
Proof.
  intros Hne Hperm Hm Hl.
  destruct (unpack_ok mels mel_lengths ids Hperm Hm Hl) as (outs & Hun & Hlen & Hout).
  exists outs, (<[os_path_join output "eval_mel.npy" := concat outs]> files).
  split_and!; try done.
  - unfold save_mels. rewrite Hun. cbn.
    destruct outs; [destruct ids; [done|discriminate Hlen]|done].
  - apply lookup_insert_eq.
  - intros path Hpath. by apply lookup_insert_ne.
Qed.

Lemma save_mels_single_artifact_witness :
  exists outs files',
    unpack [["a"; "b"; "c"]; ["d"; "e"; "f"]] [3; 1] [1; 0]%nat = Ok outs
    /\ length outs = 2%nat
    /\ (forall p k, [1; 0]%nat !! p = Some k ->
          exists mel n, [["a"; "b"; "c"]; ["d"; "e"; "f"]] !! p = Some mel
            /\ [3; 1] !! p = Some n
            /\ outs !! k = Some (slice_to mel n))
    /\ save_mels "outputs" [["a"; "b"; "c"]; ["d"; "e"; "f"]] [3; 1] [1; 0]%nat ∅
       = Ok files'
    /\ files' !! os_path_join "outputs" "eval_mel.npy" = Some (concat outs)
    /\ forall path, path <> os_path_join "outputs" "eval_mel.npy" ->
         files' !! path = (∅ : gmap string (list string)) !! path.
Proof.
  apply (save_mels_single_artifact "outputs"
           [["a"; "b"; "c"]; ["d"; "e"; "f"]] [3; 1] [1; 0]%nat ∅).
  - discriminate.
  - vm_compute. reflexivity.
  - reflexivity.
  - reflexivity.
Defined.

Example save_mels_ex :
  save_mels "outputs" [["a"; "b"; "c"]; ["d"; "e"; "f"]] [3; 1] [1; 0]%nat ∅
  = Ok {[ "outputs/eval_mel.npy" := ["d"; "a"; "b"; "c"] ]}.
Proof. reflexivity. Qed.

Lemma omap_total {A B} (f : A -> option B) (l : list A) :
  (forall x, x ∈ l -> is_Some (f x)) -> Some <$> omap f l = f <$> l.
Proof.
  induction l as [|x l IH]; intros Hf; [done|].
  destruct (Hf x) as [y Hy]; [left|]. cbn. rewrite Hy. cbn.
  rewrite IH; [done|]. intros x' Hx'. apply Hf. by right.
Qed.

Lemma half_bounds (n : nat) :
  (2 <= n)%nat ->
  ((n - 1 - 1) / 2 + 1 = n / 2 /\ 2 * (n / 2) <= n /\ n < 2 * (n / 2) + 2)%nat.
Proof.
  intros Hn. pose proof (Nat.div_mod_eq n 2) as Hd.
  pose proof (Nat.mod_upper_bound n 2) as Hr.
  split; [|lia].
  replace n with ((n - 1 - 1) + 1 * 2)%nat at 2 by lia.
  rewrite Nat.div_add by lia. lia.
Qed.

Lemma slice_step_1_2 {A} (l : list A) :
  length (slice_step l 1 2) = (length l / 2)%nat
  /\ forall j, slice_step l 1 2 !! j = l !! (2 * j + 1)%nat.
Proof.
  unfold slice_step.
  destruct (Nat.ltb_spec (Nat.min 1 (length l)) (length l)) as [Hlt|Hge].
  - replace (Nat.min 1 (length l)) with 1%nat by lia.
    set (m := ((length l - 1 - 1) / 2 + 1)%nat).
    set (f := fun i => l !! (1 + i * 2)%nat).
    destruct (half_bounds (length l)) as (Hm & Hlo & Hhi); [lia|].
    fold m in Hm. rewrite <- Hm in Hlo, Hhi |- *.
    assert (Some <$> omap f (seq 0 m) = f <$> seq 0 m) as Heq.
    { apply omap_total. intros i Hi. apply elem_of_seq in Hi.
      apply lookup_lt_is_Some. lia. }
    assert (length (omap f (seq 0 m)) = m) as Hlen.
    { apply (f_equal length) in Heq. by rewrite !length_fmap, length_seq in Heq. }
    split; [done|]. intros j.
    apply (f_equal (fun x => x !! j)) in Heq. rewrite !list_lookup_fmap in Heq.
    destruct (decide (j < m)%nat) as [Hj|Hj].
    + rewrite lookup_seq_lt in Heq by done.
      replace (2 * j + 1)%nat with (1 + (0 + j) * 2)%nat by lia.
      destruct (omap f (seq 0 m) !! j); unfold f in Heq; cbv [fmap option_fmap option_map] in Heq;
        congruence.
    + rewrite (lookup_ge_None_2 (omap _ _)) by lia.
      symmetry. apply lookup_ge_None_2. lia.
  - split.
    + rewrite Nat.div_small by lia. done.
    + intros j. change (omap _ (seq 0 0)) with (@nil A).
      rewrite lookup_nil. symmetry. apply lookup_ge_None_2. lia.
Qed.

Lemma lstrip_spec (s : str) :
  exists pre,
    s = pre ++ lstrip s
    /\ Forall (fun c => isspace c = true) pre
    /\ forall c, head (lstrip s) = Some c -> isspace c = false.
Proof.
  induction s as [|c s (pre & Hs & Hpre & Hhd)].
  - exists []. split_and!; [done|constructor|done].
  - cbn. destruct (isspace c) eqn:Hc.
    + exists (c :: pre). split_and!; [cbn; congruence|by constructor|done].
    + exists []. split_and!; [done|constructor|]. cbn. congruence.
Qed.

(** What [strip] removes is whitespace, and what it leaves neither starts
    nor ends with whitespace. *)
Lemma strip_spec (s : str) :
  exists pre post,
    s = pre ++ strip s ++ post
    /\ Forall (fun c => isspace c = true) pre
    /\ Forall (fun c => isspace c = true) post
    /\ (forall c, head (strip s) = Some c -> isspace c = false)
    /\ (forall c, last (strip s) = Some c -> isspace c = false).
Proof.
  destruct (lstrip_spec s) as (pre & Hs & Hpre & Hhd).
  destruct (lstrip_spec (reverse (lstrip s))) as (tsop & Hr & Hpost & Hlast).
  assert (lstrip s = strip s ++ reverse tsop) as Hl.
  { unfold strip, rstrip. rewrite <- reverse_app, <- Hr. by rewrite reverse_involutive. }
  exists pre, (reverse tsop). split_and!.
  - congruence.
  - done.
  - by apply Forall_reverse.
  - intros c Hc. apply Hhd. rewrite Hl. by destruct (strip s).
  - intros c Hc. apply Hlast. unfold strip, rstrip in Hc.
    by rewrite last_reverse in Hc.
Qed.

(** C9. Whatever lines were read from the input file (under the default
    encoding, or under gbk after a [UnicodeDecodeError]), the texts handed
    to the encoder are the lines at indices 1, 3, 5, ..., each stripped of
    surrounding whitespace: there are [len(lines) // 2] of them and text
    [j] is line [2j+1] without the whitespace before and after it, so no
    line at an even index is among them. *)
Theorem texts_are_odd_lines (readlines : option string -> result (list str))
    (lines : list str) :
  (readlines None = Ok lines
   \/ (readlines None = Raise "UnicodeDecodeError"
       /\ readlines (Some "gbk") = Ok lines)) ->
  exists texts,
    read_texts readlines = Ok texts
    /\ length texts = (length lines / 2)%nat
    /\ (forall j, texts !! j = strip <$> lines !! (2 * j + 1)%nat)
    /\ forall j text, texts !! j = Some text ->
         exists line pre post,
           lines !! (2 * j + 1)%nat = Some line
           /\ line = pre ++ text ++ post
           /\ Forall (fun c => isspace c = true) pre
           /\ Forall (fun c => isspace c = true) post
           /\ (forall c, head text = Some c -> isspace c = false)
           /\ (forall c, last text = Some c -> isspace c = false).
Proof.
  intros Hread. exists (slice_step (strip <$> lines) 1 2).
  destruct (slice_step_1_2 (strip <$> lines)) as [Hlen Hat].
  assert (forall j, slice_step (strip <$> lines) 1 2 !! j
                    = strip <$> lines !! (2 * j + 1)%nat) as Hat'.
  { intros j. by rewrite Hat, list_lookup_fmap. }
  split_and!.
  - unfold read_texts, read_sentences.
    destruct Hread as [-> | [-> ->]]; [done|].
    by rewrite decide_True by done.
  - by rewrite Hlen, length_fmap.
  - done.
  - intros j text Hj. rewrite Hat' in Hj.
    destruct (lines !! (2 * j + 1)%nat) as [line|]; [|done].
    injection Hj as <-.
    destruct (strip_spec line) as (pre & post & ?). exists line, pre, post. done.
Qed.

Lemma texts_are_odd_lines_witness :
  exists texts,
    read_texts (fun enc => match enc with
                           | None => Raise "UnicodeDecodeError"
                           | Some _ => Ok [[76; 48; 10]; [32; 104; 105; 10];
                                           [76; 49; 10]; [111; 107; 32; 10];
                                           [76; 50; 10]]
                           end) = Ok texts
    /\ length texts = (5 / 2)%nat
    /\ (forall j, texts !! j
         = strip <$> [[76; 48; 10]; [32; 104; 105; 10]; [76; 49; 10];
                      [111; 107; 32; 10]; [76; 50; 10]] !! (2 * j + 1)%nat)
    /\ forall j text, texts !! j = Some text ->
         exists line pre post,
           [[76; 48; 10]; [32; 104; 105; 10]; [76; 49; 10];
            [111; 107; 32; 10]; [76; 50; 10]] !! (2 * j + 1)%nat = Some line
           /\ line = pre ++ text ++ post
           /\ Forall (fun c => isspace c = true) pre
           /\ Forall (fun c => isspace c = true) post
           /\ (forall c, head text = Some c -> isspace c = false)
           /\ (forall c, last text = Some c -> isspace c = false).
Proof.
  apply (texts_are_odd_lines
           (fun enc => match enc with
                       | None => Raise "UnicodeDecodeError"
                       | Some _ => Ok [[76; 48; 10]; [32; 104; 105; 10];
                                       [76; 49; 10]; [111; 107; 32; 10];
                                       [76; 50; 10]]
                       end)
           [[76; 48; 10]; [32; 104; 105; 10]; [76; 49; 10]; [111; 107; 32; 10];
            [76; 50; 10]]).
  right. split; reflexivity.
Defined.

Example read_texts_ex :
  read_texts (fun _ => Ok [[76; 48; 10]; [32; 104; 105; 10]; [76; 49; 10];
                           [111; 107; 32; 10]; [76; 50; 10]])
  = Ok [[104; 105]; [111; 107]].
Proof. reflexivity. Qed.

(** ** The timing context manager *)

Section MeasureTime_facts.
Context {Time : Type} (time_sub : Time -> Time -> Time).
Context (cuda_synchronize : world Time -> world Time).

End MeasureTime_facts.

Example timed_infer_raises :
  let infer : stmt Z (list Z) := fun w =>
    (World (clock w + 5) (grad_enabled w) (measurements w), Raise "RuntimeError") in
  timed_infer Z.sub (fun w => w) infer (World 100 true ∅)
  = (World 105 true {[ "tacotron2_time" := 5 ]}, Raise "RuntimeError").
Proof. reflexivity. Qed.

Example timed_infer_returns :
  let infer : stmt Z (list Z) := fun w =>
    (World (clock w + 5) (grad_enabled w) (measurements w), Ok [1; 2]) in
  timed_infer Z.sub (fun w => World (clock w + 1) (grad_enabled w) (measurements w))
    infer (World 100 true ∅)
  = (World 107 true {[ "tacotron2_time" := 6 ]}, Ok (Some [1; 2])).
Proof. reflexivity. Qed.


(** * Further properties of the packer *)

Lemma omap_Some_fmap {A} (l : list A) : omap (fun x => x) (Some <$> l) = l.
Proof. induction l as [|x l IH]; [done|]. cbn. by rewrite IH. Qed.

Lemma lookup_fmap_seq {A} (t : list A) :
  (fun i => t !! i) <$> seq 0 (length t) = Some <$> t.
Proof.
  apply list_eq. intros i. rewrite !list_lookup_fmap.
  destruct (decide (i < length t)%nat) as [Hi|Hi].
  - rewrite lookup_seq_lt by done. cbn.
    apply lookup_lt_is_Some in Hi as [x Hx]. by rewrite Hx.
  - rewrite (lookup_ge_None_2 (seq _ _)) by (rewrite length_seq; lia).
    by rewrite (lookup_ge_None_2 t) by lia.
Qed.

(** Reading a list at the indices of a rearrangement of its positions gives
    a rearrangement of the list. *)
Lemma gather_Permutation {A} (t vals : list A) (ids : list nat) :
  ids ≡ₚ seq 0 (length t) ->
  Some <$> vals = (fun i => t !! i) <$> ids ->
  vals ≡ₚ t.
Proof.
  intros Hperm Hv.
  rewrite <- (omap_Some_fmap vals), Hv, Hperm, lookup_fmap_seq.
  by rewrite omap_Some_fmap.
Qed.

Lemma sort_ok_ids_Permutation t vals ids :
  sort_ok t vals ids -> ids ≡ₚ seq 0 (length t).
Proof.
  intros H. rewrite <- (sort_ok_length _ _ _ H).
  apply is_permutation_Permutation, H.
Qed.

Lemma sort_ok_values_fmap t vals ids :
  sort_ok t vals ids -> Some <$> vals = (fun i => t !! i) <$> ids.
Proof.
  intros H. apply list_eq. intros p. rewrite !list_lookup_fmap.
  destruct (ids !! p) as [i|] eqn:Hp; cbn.
  - rewrite (sort_ok_values _ _ _ H _ _ Hp).
    assert (i < length t)%nat as Hi.
    { eapply sort_ok_bound; [done|]. by eapply list_elem_of_lookup_2. }
    apply lookup_lt_is_Some in Hi as [x Hx]. by rewrite Hx.
  - apply lookup_ge_None in Hp.
    rewrite (lookup_ge_None_2 vals); [done|].
    rewrite (sort_ok_vals_length _ _ _ H), <- (sort_ok_length _ _ _ H). done.
Qed.

Lemma slice_to_padded m s : slice_to (padded m s) (len s) = s.
Proof.
  unfold len. rewrite slice_to_nonneg by lia.
  rewrite Nat2Z.id. apply padded_prefix.
Qed.

(** X1. Packing a non-empty request set and handing the batch itself, with
    the length vector as valid lengths, to the tail of [main] gives back
    the input sequences, in their order: trimming undoes the padding and
    the index lookup undoes the sort. *)
Theorem pack_unpack_identity torch_sort (sequences : list (list Z)) :
  sequences <> [] ->
  sort_contract (len <$> sequences) (torch_sort (len <$> sequences)) = true ->
  exists texts text_lengths ids,
    pad_sequences torch_sort sequences = Ok (texts, text_lengths, ids)
    /\ unpack texts text_lengths ids = Ok sequences.
Proof.
  intros Hne Hc.
  destruct (pad_sequences_ok torch_sort sequences Hne Hc)
    as (texts & lens & ids & L & Hpad & _ & Hok & HL & Hlen & Hw & Hat).
  pose proof (sort_ok_length _ _ _ Hok) as Hil.
  pose proof (sort_ok_vals_length _ _ _ Hok) as Hvl.
  rewrite length_fmap in Hil, Hvl.
  destruct (unpack_ok texts lens ids (sort_ok_perm _ _ _ Hok))
    as (outs & Hun & Hol & Hout); [congruence..|].
  exists texts, lens, ids. split; [done|]. rewrite Hun. f_equal.
  apply list_eq_same_length with (length sequences); [done|congruence|].
  intros k out src Hk Hout_k Hsrc.
  assert (k ∈ ids) as Hin.
  { eapply sort_ok_onto; [done|]. by rewrite length_fmap. }
  apply list_elem_of_lookup in Hin as [p Hp].
  destruct (Hout p k Hp) as (row & n & Hrow & Hn & Hk').
  rewrite (Hat p k src Hp Hsrc) in Hrow.
  rewrite (sort_ok_values _ _ _ Hok _ _ Hp), list_lookup_fmap, Hsrc in Hn.
  cbn in Hn. injection Hrow as <-. injection Hn as <-.
  rewrite Hout_k in Hk'. injection Hk' as ->.
  apply slice_to_padded.
Qed.

Lemma pack_unpack_identity_witness :
  exists texts text_lengths ids,
    pad_sequences sort_desc_ties_reversed [[3; 0]; [4; 5; 6]; []; [7; 8]]
      = Ok (texts, text_lengths, ids)
    /\ unpack texts text_lengths ids = Ok [[3; 0]; [4; 5; 6]; []; [7; 8]].
Proof.
  apply (pack_unpack_identity sort_desc_ties_reversed
           [[3; 0]; [4; 5; 6]; []; [7; 8]]).
  - discriminate.
  - vm_compute. reflexivity.
Defined.

(** X2. The returned length vector is a rearrangement of the input lengths
    in non-increasing order, and its entry [p] is the length of the source
    of row [p]. *)
Theorem pad_sequences_length_vector torch_sort (sequences : list (list Z)) :
  sequences <> [] ->
  sort_contract (len <$> sequences) (torch_sort (len <$> sequences)) = true ->
  exists texts text_lengths ids,
    pad_sequences torch_sort sequences = Ok (texts, text_lengths, ids)
    /\ text_lengths ≡ₚ len <$> sequences
    /\ (forall p q a b, (p <= q)%nat ->
          text_lengths !! p = Some a -> text_lengths !! q = Some b -> b <= a)
    /\ ids ≡ₚ seq 0 (length sequences).
Proof.
  intros Hne Hc.
  destruct (pad_sequences_ok torch_sort sequences Hne Hc)
    as (texts & lens & ids & L & Hpad & _ & Hok & HL & Hlen & Hw & Hat).
  exists texts, lens, ids. split_and!; [done| | |].
  - eapply gather_Permutation;
      [by eapply sort_ok_ids_Permutation|by apply sort_ok_values_fmap].
  - pose proof (sort_ok_sorted _ _ _ Hok) as Hs. clear -Hs.
    induction lens as [|x lens IH]; intros p q a b Hpq Hp Hq; [done|].
    apply sorted_desc_cons in Hs as [Hle Hs].
    destruct p as [|p], q as [|q]; cbn in Hp, Hq; simplify_eq; try lia.
    + apply Hle. by eapply list_elem_of_lookup_2.
    + eapply (IH Hs p q); [lia|done..].
  - pose proof (sort_ok_ids_Permutation _ _ _ Hok) as H.
    by rewrite length_fmap in H.
Qed.

Lemma pad_sequences_length_vector_witness :
  exists texts text_lengths ids,
    pad_sequences sort_desc_stable [[1]; [2; 3; 4]; [5; 6]; [7]]
      = Ok (texts, text_lengths, ids)
    /\ text_lengths ≡ₚ len <$> [[1]; [2; 3; 4]; [5; 6]; [7]]
    /\ (forall p q a b, (p <= q)%nat ->
          text_lengths !! p = Some a -> text_lengths !! q = Some b -> b <= a)
    /\ ids ≡ₚ seq 0 (length [[1]; [2; 3; 4]; [5; 6]; [7]]).
Proof.
  apply (pad_sequences_length_vector sort_desc_stable
           [[1]; [2; 3; 4]; [5; 6]; [7]]).
  - discriminate.
  - vm_compute. reflexivity.
Defined.

Lemma padded_exact s : padded (len s) s = s.
Proof. unfold padded. rewrite Z.sub_diag. cbn. apply app_nil_r. Qed.

(** X3. A single request is packed as it is: one row equal to the
    sequence, no padding, length vector [len s] and permutation [0]. *)
Theorem pad_sequences_single torch_sort (s : list Z) :
  sort_contract [len s] (torch_sort [len s]) = true ->
  pad_sequences torch_sort [s] = Ok ([s], [len s], [0%nat]).
Proof.
  intros Hc.
  destruct (pad_sequences_ok torch_sort [s]) as
    (texts & lens & ids & L & Hpad & _ & Hok & HL & Hlen & Hw & Hat); [done..|].
  pose proof (sort_ok_ids_Permutation _ _ _ Hok) as Hids.
  apply Permutation_singleton_r in Hids. subst ids.
  pose proof (gather_Permutation _ _ _ (sort_ok_ids_Permutation _ _ _ Hok)
                (sort_ok_values_fmap _ _ _ Hok)) as Hlens.
  apply Permutation_singleton_r in Hlens. subst lens.
  injection HL as <-.
  specialize (Hat 0%nat 0%nat s eq_refl eq_refl). rewrite padded_exact in Hat.
  destruct texts as [|row [|? ?]]; try discriminate Hlen.
  cbn in Hat. injection Hat as ->. exact Hpad.
Qed.

Lemma pad_sequences_single_witness :
  pad_sequences sort_desc_stable [[4; 0; 9]] = Ok ([[4; 0; 9]], [3], [0%nat]).
Proof.
  apply (pad_sequences_single sort_desc_stable [4; 0; 9]).
  vm_compute. reflexivity.
Defined.

(** X4. When all sequences have one length nothing is padded: row [p] is
    exactly the sequence at index [ids[p]], so the batch is a rearrangement
    of the request set. *)
Theorem pad_sequences_equal_lengths torch_sort (sequences : list (list Z)) n :
  sequences <> [] ->
  sort_contract (len <$> sequences) (torch_sort (len <$> sequences)) = true ->
  Forall (fun s => len s = n) sequences ->
  exists texts text_lengths ids,
    pad_sequences torch_sort sequences = Ok (texts, text_lengths, ids)
    /\ (forall p i, ids !! p = Some i -> texts !! p = sequences !! i)
    /\ texts ≡ₚ sequences
    /\ text_lengths = replicate (length sequences) n.
Proof.
  intros Hne Hc Hn. rewrite Forall_forall in Hn.
  destruct (pad_sequences_ok torch_sort sequences Hne Hc)
    as (texts & lens & ids & L & Hpad & _ & Hok & HL & Hlen & Hw & Hat).
  pose proof (sort_ok_length _ _ _ Hok) as Hil. rewrite length_fmap in Hil.
  pose proof (sort_ok_ids_Permutation _ _ _ Hok) as Hids.
  rewrite length_fmap in Hids.
  pose proof (gather_Permutation _ _ _ (sort_ok_ids_Permutation _ _ _ Hok)
                (sort_ok_values_fmap _ _ _ Hok)) as Hlens.
  assert (forall x, x ∈ lens -> x = n) as Hall.
  { intros x Hx. rewrite Hlens in Hx.
    apply list_elem_of_fmap in Hx as (s & -> & Hs). by apply Hn. }
  assert (L = n) as -> by (apply Hall; by eapply list_elem_of_lookup_2).
  assert (forall p i, ids !! p = Some i -> texts !! p = sequences !! i) as Hrows.
  { intros p i Hp.
    assert (i < length sequences)%nat as Hi.
    { rewrite <- (length_fmap len). eapply sort_ok_bound; [done|].
      by eapply list_elem_of_lookup_2. }
    apply lookup_lt_is_Some in Hi as [s Hs].
    rewrite (Hat p i s Hp Hs), Hs. f_equal.
    rewrite <- (Hn s) by (by eapply list_elem_of_lookup_2). apply padded_exact. }
  exists texts, lens, ids. split_and!; try done.
  - apply (gather_Permutation sequences texts ids Hids).
    apply list_eq. intros p. rewrite !list_lookup_fmap.
    destruct (ids !! p) as [i|] eqn:Hp; cbn.
    + rewrite (Hrows p i Hp).
      assert (is_Some (sequences !! i)) as [s ->]; [|done].
      apply lookup_lt_is_Some. rewrite <- (length_fmap len).
      eapply sort_ok_bound; [done|]. by eapply list_elem_of_lookup_2.
    + apply lookup_ge_None in Hp. rewrite (lookup_ge_None_2 texts); [done|lia].
  - apply list_eq_same_length with (length sequences).
    + by rewrite length_replicate.
    + rewrite (sort_ok_vals_length _ _ _ Hok). by rewrite length_fmap.
    + intros p x y Hp Hx Hy. apply lookup_replicate in Hy as [-> _].
      apply Hall. by eapply list_elem_of_lookup_2.
Qed.

Lemma pad_sequences_equal_lengths_witness :
  exists texts text_lengths ids,
    pad_sequences sort_desc_ties_reversed [[1; 2]; [3; 4]; [5; 6]]
      = Ok (texts, text_lengths, ids)
    /\ (forall p i, ids !! p = Some i ->
          texts !! p = [[1; 2]; [3; 4]; [5; 6]] !! i)
    /\ texts ≡ₚ [[1; 2]; [3; 4]; [5; 6]]
    /\ text_lengths = replicate (length [[1; 2]; [3; 4]; [5; 6]]) 2.
Proof.
  apply (pad_sequences_equal_lengths sort_desc_ties_reversed
           [[1; 2]; [3; 4]; [5; 6]] 2).
  - discriminate.
  - vm_compute. reflexivity.
  - repeat constructor.
Defined.

(** * Further properties of the order recovery *)

Lemma mapM_result_ext {A B} (f g : A -> result B) (l : list A) :
  (forall x, x ∈ l -> f x = g x) -> mapM f l = mapM g l.
Proof.
  induction l as [|x l IH]; intros Hfg; [done|].
  rewrite !mapM_cons, (Hfg x) by left.
  rewrite IH; [done|]. intros y Hy. apply Hfg. by right.
Qed.

Lemma mapM_result_raise {A B} (f : A -> result B) (l : list A) e :
  (forall x, x ∈ l -> (exists y, f x = Ok y) \/ f x = Raise e) ->
  (exists x, x ∈ l /\ f x = Raise e) ->
  mapM f l = Raise e.
Proof.
  induction l as [|x l IH]; intros Hall (x0 & Hin & Hx0); [inversion Hin|].
  rewrite mapM_cons.
  destruct (Hall x) as [[y Hy]|Hx]; [left| |by rewrite Hx].
  rewrite Hy. cbn.
  apply elem_of_cons in Hin as [->|Hin]; [congruence|].
  rewrite IH; [done| |eauto]. intros z Hz. apply Hall. by right.
Qed.

(** X5. The index lookup of lines 187-189 is the inverse of reading by the
    permutation: if row [p] holds the item of index [ids[p]] of a list [xs],
    the recovered list is [xs]. *)
Theorem recover_order_inverts_gather {A} (xs rows : list A) (ids : list nat) :
  is_permutation ids = true ->
  length xs = length ids ->
  Some <$> rows = (fun i => xs !! i) <$> ids ->
  recover_order rows ids = Ok xs.
Proof.
  intros Hperm Hlen Hrows.
  assert (length rows = length ids) as Hrl.
  { apply (f_equal length) in Hrows. by rewrite !length_fmap in Hrows. }
  destruct (recover_order_ok rows ids) as (outs & Hrec & Hol & Hat).
  { intros k Hk. by apply is_permutation_onto. }
  { lia. }
  rewrite Hrec. f_equal.
  apply list_eq_same_length with (length ids); [done..|].
  intros k out x Hk Hout Hx.
  destruct (Hat k Hk) as (p & row & Hp & Hrow & Hout').
  apply (f_equal (fun l => l !! p)) in Hrows.
  rewrite !list_lookup_fmap, Hp, Hrow in Hrows. cbn in Hrows. congruence.
Qed.

Lemma recover_order_inverts_gather_witness :
  recover_order ["c"; "a"; "d"; "b"] [2; 0; 3; 1]%nat = Ok ["a"; "b"; "c"; "d"].
Proof.
  apply (recover_order_inverts_gather ["a"; "b"; "c"; "d"]
           ["c"; "a"; "d"; "b"] [2; 0; 3; 1]%nat); reflexivity.
Defined.

Lemma recover_order_gather {A} (rows : list A) (ids : list nat) :
  is_permutation ids = true ->
  length rows = length ids ->
  exists outs,
    recover_order rows ids = Ok outs
    /\ length outs = length ids
    /\ Some <$> rows = (fun k => outs !! k) <$> ids.
Proof.
  intros Hperm Hlen.
  destruct (recover_order_ok rows ids) as (outs & Hrec & Hol & Hat).
  { intros k Hk. by apply is_permutation_onto. }
  { lia. }
  exists outs. split_and!; try done.
  apply list_eq. intros p. rewrite !list_lookup_fmap.
  destruct (ids !! p) as [k|] eqn:Hp; cbn.
  - destruct (Hat k) as (p' & row & Hp' & Hrow & Hout).
    { apply is_permutation_bound; [done|]. by eapply list_elem_of_lookup_2. }
    assert (p' = p) as -> by by eapply is_permutation_inj.
    by rewrite Hrow, Hout.
  - apply lookup_ge_None in Hp. rewrite (lookup_ge_None_2 rows); [done|lia].
Qed.

(** X6. With one row per permutation entry the recovered list is a
    rearrangement of the rows: no row is lost and none appears twice. *)
Theorem recover_order_Permutation {A} (rows : list A) (ids : list nat) :
  is_permutation ids = true ->
  length rows = length ids ->
  exists outs, recover_order rows ids = Ok outs /\ outs ≡ₚ rows.
Proof.
  intros Hperm Hlen.
  destruct (recover_order_gather rows ids Hperm Hlen) as (outs & Hrec & Hol & Hg).
  exists outs. split; [done|]. symmetry.
  apply (gather_Permutation outs rows ids); [|done].
  rewrite Hol. by apply is_permutation_Permutation.
Qed.

Lemma recover_order_Permutation_witness :
  exists outs,
    recover_order ["c"; "a"; "d"; "b"] [2; 0; 3; 1]%nat = Ok outs
    /\ outs ≡ₚ ["c"; "a"; "d"; "b"].
Proof.
  apply (recover_order_Permutation ["c"; "a"; "d"; "b"] [2; 0; 3; 1]%nat);
    reflexivity.
Defined.

(** X7. When the engine returns fewer rows, or fewer valid lengths, than
    there are requests, the tail of [main] fails with [IndexError]: the
    lookup of the missing row is out of range. *)
Theorem unpack_too_few_rows {frame} (mels : list (list frame))
    (mel_lengths : list Z) (ids : list nat) :
  is_permutation ids = true ->
  (length mels < length ids \/ length mel_lengths < length ids)%nat ->
  unpack mels mel_lengths ids = Raise "IndexError".
Proof.
  intros Hperm Hfew. unfold unpack, recover_order.
  set (rows := trim_mels mels mel_lengths).
  assert (length rows < length ids)%nat as Hrows.
  { unfold rows, trim_mels. rewrite length_zip_with. lia. }
  assert (forall k, (k < length ids)%nat ->
            exists p, list_index ids k = Ok p /\ ids !! p = Some k) as Hidx.
  { intros k Hk. apply list_index_ok. by apply is_permutation_onto. }
  apply mapM_result_raise.
  - intros k Hk. apply elem_of_seq in Hk.
    destruct (Hidx k) as (p & -> & _); [lia|]. cbn. unfold getitem.
    destruct (rows !! p); eauto.
  - apply lookup_lt_is_Some in Hrows as [k Hk].
    exists k. split.
    + apply elem_of_seq. split; [lia|]. cbn.
      apply is_permutation_bound; [done|]. by eapply list_elem_of_lookup_2.
    + destruct (Hidx k) as (p & -> & Hp).
      { apply is_permutation_bound; [done|]. by eapply list_elem_of_lookup_2. }
      assert (p = length rows) as -> by by eapply is_permutation_inj.
      cbn. unfold getitem. by rewrite lookup_ge_None_2.
Qed.

Lemma unpack_too_few_rows_witness :
  unpack [["a"; "b"]; ["c"; "d"]] [2; 1] [1; 2; 0]%nat = Raise "IndexError".
Proof.
  apply (unpack_too_few_rows [["a"; "b"]; ["c"; "d"]] [2; 1] [1; 2; 0]%nat).
  - vm_compute. reflexivity.
  - left. cbn. lia.
Defined.

(** X8. Rows and valid lengths beyond the number of requests are ignored:
    the result is that of the first [len(ids)] rows and lengths, and no
    error reports the surplus. *)
Theorem unpack_surplus_ignored {frame} (mels : list (list frame))
    (mel_lengths : list Z) (ids : list nat) :
  is_permutation ids = true ->
  (length ids <= length mels)%nat ->
  (length ids <= length mel_lengths)%nat ->
  exists outs,
    unpack mels mel_lengths ids = Ok outs
    /\ unpack (take (length ids) mels) (take (length ids) mel_lengths) ids
       = Ok outs.
Proof.
  intros Hperm Hm Hl.
  destruct (unpack_ok (take (length ids) mels) (take (length ids) mel_lengths)
              ids Hperm) as (outs & Hun & _ & _).
  { rewrite length_take. lia. }
  { rewrite length_take. lia. }
  exists outs. split; [|done]. rewrite <- Hun.
  unfold unpack, recover_order. apply mapM_result_ext.
  intros k Hk. apply elem_of_seq in Hk.
  destruct (list_index_ok ids k) as (p & -> & Hp).
  { apply is_permutation_onto; [done|lia]. }
  cbn. unfold getitem, trim_mels. apply lookup_lt_Some in Hp.
  by rewrite !lookup_zip_with, !lookup_take_lt by done.
Qed.

Lemma unpack_surplus_ignored_witness :
  exists outs,
    unpack [["a"; "b"]; ["c"; "d"]; ["e"; "f"]] [2; 1; 2; 7] [1; 0]%nat = Ok outs
    /\ unpack (take (length [1; 0]%nat) [["a"; "b"]; ["c"; "d"]; ["e"; "f"]])
         (take (length [1; 0]%nat) [2; 1; 2; 7]) [1; 0]%nat = Ok outs.
Proof.
  apply (unpack_surplus_ignored [["a"; "b"]; ["c"; "d"]; ["e"; "f"]]
           [2; 1; 2; 7] [1; 0]%nat).
  - vm_compute. reflexivity.
  - cbn. lia.
  - cbn. lia.
Defined.

(** X9. Output [k] is made from row [p = ids.index(k)] alone, and from no
    more of it than its first [n] frames, [n] being the valid length of the
    row: two engine results that agree there give the same output [k],
    whatever their other rows and the frames past [n] hold. *)
Theorem unpack_row_isolation {frame} (mels mels' : list (list frame))
    (mel_lengths mel_lengths' : list Z) (ids : list nat) p k mel mel' n :
  is_permutation ids = true ->
  length mels = length ids -> length mel_lengths = length ids ->
  length mels' = length ids -> length mel_lengths' = length ids ->
  ids !! p = Some k ->
  mels !! p = Some mel -> mels' !! p = Some mel' ->
  mel_lengths !! p = Some n -> mel_lengths' !! p = Some n ->
  0 <= n ->
  take (Z.to_nat n) mel = take (Z.to_nat n) mel' ->
  exists outs outs',
    unpack mels mel_lengths ids = Ok outs
    /\ unpack mels' mel_lengths' ids = Ok outs'
    /\ outs !! k = outs' !! k
    /\ outs !! k = Some (take (Z.to_nat n) mel).
Proof.
  intros Hperm Hm Hl Hm' Hl' Hp Hmel Hmel' Hn Hn' Hpos Hsame.
  destruct (unpack_ok mels mel_lengths ids Hperm Hm Hl) as (outs & Hun & _ & Hat).
  destruct (unpack_ok mels' mel_lengths' ids Hperm Hm' Hl')
    as (outs' & Hun' & _ & Hat').
  exists outs, outs'. split_and!; try done.
  - destruct (Hat p k Hp) as (m1 & n1 & ? & ? & ->).
    destruct (Hat' p k Hp) as (m2 & n2 & ? & ? & ->).
    simplify_eq. rewrite !slice_to_nonneg by done. congruence.
  - destruct (Hat p k Hp) as (m1 & n1 & ? & ? & ->).
    simplify_eq. by rewrite slice_to_nonneg by done.
Qed.

Lemma unpack_row_isolation_witness :
  exists outs outs',
    unpack [["a"; "b"; "c"]; ["d"; "e"; "f"]] [3; 2] [1; 0]%nat = Ok outs
    /\ unpack [["x"; "y"; "z"]; ["d"; "e"; "w"]] [1; 2] [1; 0]%nat = Ok outs'
    /\ outs !! 0%nat = outs' !! 0%nat
    /\ outs !! 0%nat = Some (take (Z.to_nat 2) ["d"; "e"; "f"]).
Proof.
  apply (unpack_row_isolation [["a"; "b"; "c"]; ["d"; "e"; "f"]]
           [["x"; "y"; "z"]; ["d"; "e"; "w"]] [3; 2] [1; 2] [1; 0]%nat
           1%nat 0%nat ["d"; "e"; "f"] ["d"; "e"; "w"] 2);
    try reflexivity.
  lia.
Defined.

(** * Further properties of the saved array *)

Lemma length_concat_sum {A} (ls : list (list A)) :
  length (concat ls) = sum_list_with length ls.
Proof. induction ls as [|l ls IH]; [done|]. cbn. rewrite length_app. lia. Qed.

Lemma length_slice_to_nonneg {A} (x : list A) n :
  0 <= n -> length (slice_to x n) = (Z.to_nat n `min` length x)%nat.
Proof. intros Hn. by rewrite slice_to_nonneg, length_take. Qed.

Lemma sum_trim_mels {A} (mels : list (list A)) (mel_lengths : list Z) :
  Forall (fun n => 0 <= n) mel_lengths ->
  sum_list_with length (trim_mels mels mel_lengths)
  = sum_list (zip_with (fun mel n => Z.to_nat n `min` length mel)%nat
                mels mel_lengths).
Proof.
  intros Hpos. revert mels.
  induction Hpos as [|n lens Hn _ IH]; intros [|mel mels]; try done.
  cbn. rewrite length_slice_to_nonneg by done.
  unfold trim_mels in IH. by rewrite IH.
Qed.

(** X10. The saved array has as many frames as the trimmed outputs have
    together: with non-negative valid lengths, the sum over the rows of the
    smaller of valid length and row width.  Where one output ends and the
    next begins is not stored. *)
Theorem save_mels_total_length {frame} (output : string)
    (mels : list (list frame)) (mel_lengths : list Z) (ids : list nat)
    (files : gmap string (list frame)) :
  ids <> [] ->
  is_permutation ids = true ->
  length mels = length ids -> length mel_lengths = length ids ->
  Forall (fun n => 0 <= n) mel_lengths ->
  exists arr,
    save_mels output mels mel_lengths ids files
      = Ok (<[os_path_join output "eval_mel.npy" := arr]> files)
    /\ length arr
       = sum_list (zip_with (fun mel n => Z.to_nat n `min` length mel)%nat
                     mels mel_lengths).
Proof.
  intros Hne Hperm Hm Hl Hpos. unfold save_mels, unpack.
  destruct (recover_order_gather (trim_mels mels mel_lengths) ids Hperm)
    as (outs & Hrec & Hol & Hg).
  { unfold trim_mels. rewrite length_zip_with. lia. }
  assert (outs ≡ₚ trim_mels mels mel_lengths) as Houts.
  { symmetry. apply (gather_Permutation outs _ ids); [|done].
    rewrite Hol. by apply is_permutation_Permutation. }
  exists (concat outs). rewrite Hrec. cbn. split.
  - destruct outs; [|done]. apply Permutation_nil_l in Houts.
    apply (f_equal length) in Houts. unfold trim_mels in Houts.
    rewrite length_zip_with in Houts. destruct ids; [done|]. cbn in *. lia.
  - by rewrite length_concat_sum, Houts, sum_trim_mels.
Qed.

Lemma save_mels_total_length_witness :
  exists arr,
    save_mels "outputs" [["a"; "b"; "c"]; ["d"; "e"; "f"]] [9; 1] [1; 0]%nat ∅
      = Ok (<[os_path_join "outputs" "eval_mel.npy" := arr]> ∅)
    /\ length arr
       = sum_list (zip_with (fun mel n => Z.to_nat n `min` length mel)%nat
                     [["a"; "b"; "c"]; ["d"; "e"; "f"]] [9; 1]).
Proof.
  apply (save_mels_total_length "outputs" [["a"; "b"; "c"]; ["d"; "e"; "f"]]
           [9; 1] [1; 0]%nat ∅).
  - discriminate.
  - vm_compute. reflexivity.
  - reflexivity.
  - reflexivity.
  - repeat constructor; lia.
Defined.

(** * Further properties of the timed statement *)

Section timed_facts.
Context {Time : Type} (time_sub : Time -> Time -> Time).
Context (cuda_synchronize : world Time -> world Time).

Lemma with_MeasureTime_eq {A} (k : string) (body : stmt Time A) (w : world Time) :
  with_stmt (MeasureTime_cm time_sub cuda_synchronize) (MeasureTime_init k) body w
  = let w1 := cuda_synchronize w in
    let w3 := cuda_synchronize (body w1).1 in
    (World (clock w3) (grad_enabled w3)
       (<[k := time_sub (clock w3) (clock w1)]> (measurements w3)),
     match (body w1).2 with
     | Ok a => Ok (Some a)
     | Raise e => Raise e
     end).
Proof.
  unfold with_stmt. cbn.
  by destruct (body (cuda_synchronize w)) as [w2 [a|e]].
Qed.

Lemma timed_infer_eq {A} (body : stmt Time A) (w : world Time) :
  timed_infer time_sub cuda_synchronize body w
  = let w1 := cuda_synchronize (World (clock w) false (measurements w)) in
    let w3 := cuda_synchronize (body w1).1 in
    (World (clock w3) (grad_enabled w)
       (<["tacotron2_time" := time_sub (clock w3) (clock w1)]> (measurements w3)),
     match (body w1).2 with
     | Ok a => Ok (Some a)
     | Raise e => Raise e
     end).
Proof.
  unfold timed_infer, with_stmt. cbn.
  by destruct (body (cuda_synchronize _)) as [w2 [a|e]].
Qed.

(** X11. [MeasureTime] writes one entry and nothing else: after the
    statement every other key of the measurements, the clock and the grad
    mode are as the closing synchronisation left them, and the only key
    that may be new is its own. *)
Theorem MeasureTime_touches_only_its_key {A} (k : string)
    (body : stmt Time A) (w : world Time) :
  let w' :=
    (with_stmt (MeasureTime_cm time_sub cuda_synchronize) (MeasureTime_init k)
       body w).1 in
  let w3 := cuda_synchronize (body (cuda_synchronize w)).1 in
  (forall k', k' <> k -> measurements w' !! k' = measurements w3 !! k')
  /\ clock w' = clock w3
  /\ grad_enabled w' = grad_enabled w3
  /\ dom (measurements w') = {[k]} ∪ dom (measurements w3).
Proof.
  cbn zeta. rewrite with_MeasureTime_eq. cbn. split_and!; try done.
  - intros k' Hk'. by rewrite lookup_insert_ne.
  - by rewrite dom_insert_L.
Qed.

End timed_facts.

(** * Further properties of the text selection *)

Lemma read_sentences_ok (readlines : option string -> result (list (list Z)))
    (lines : list (list Z)) :
  (readlines None = Ok lines
   \/ (readlines None = Raise "UnicodeDecodeError"
       /\ readlines (Some "gbk") = Ok lines)) ->
  read_sentences readlines = Ok (strip <$> lines).
Proof.
  unfold read_sentences. intros [-> | [-> ->]]; [done|].
  by rewrite decide_True by done.
Qed.

Lemma read_texts_ok (readlines : option string -> result (list (list Z)))
    (lines : list (list Z)) :
  (readlines None = Ok lines
   \/ (readlines None = Raise "UnicodeDecodeError"
       /\ readlines (Some "gbk") = Ok lines)) ->
  read_texts readlines = Ok (slice_step (strip <$> lines) 1 2).
Proof. intros H. unfold read_texts. by rewrite (read_sentences_ok _ lines). Qed.

Lemma lstrip_all_space (s : list Z) :
  Forall (fun c => isspace c = true) s -> lstrip s = [].
Proof. induction 1 as [|c s Hc _ IH]; [done|]. cbn. by rewrite Hc. Qed.

Lemma strip_all_space (s : list Z) :
  Forall (fun c => isspace c = true) s -> strip s = [].
Proof. intros H. unfold strip. by rewrite lstrip_all_space. Qed.

(** X12. A text line that holds nothing but whitespace (a blank line, say)
    is not skipped: it yields the empty text at its place, which goes to
    the encoder like any other. *)
Theorem read_texts_blank_line (readlines : option string -> result (list (list Z)))
    (lines : list (list Z)) (j : nat) (line : list Z) :
  (readlines None = Ok lines
   \/ (readlines None = Raise "UnicodeDecodeError"
       /\ readlines (Some "gbk") = Ok lines)) ->
  lines !! (2 * j + 1)%nat = Some line ->
  Forall (fun c => isspace c = true) line ->
  exists texts,
    read_texts readlines = Ok texts
    /\ length texts = (length lines / 2)%nat
    /\ texts !! j = Some [].
Proof.
  intros Hread Hline Hblank. exists (slice_step (strip <$> lines) 1 2).
  destruct (slice_step_1_2 (strip <$> lines)) as [Hlen Hat].
  split_and!.
  - by apply read_texts_ok.
  - by rewrite Hlen, length_fmap.
  - rewrite Hat, list_lookup_fmap, Hline. cbn. by rewrite strip_all_space.
Qed.

Lemma read_texts_blank_line_witness :
  exists texts,
    read_texts (fun _ => Ok [[76; 48; 10]; [104; 105; 10]; [76; 49; 10];
                             [32; 9; 13; 10]; [76; 50; 10]; [111; 10]])
      = Ok texts
    /\ length texts = (6 / 2)%nat
    /\ texts !! 1%nat = Some [].
Proof.
  apply (read_texts_blank_line
           (fun _ => Ok [[76; 48; 10]; [104; 105; 10]; [76; 49; 10];
                         [32; 9; 13; 10]; [76; 50; 10]; [111; 10]])
           [[76; 48; 10]; [104; 105; 10]; [76; 49; 10];
            [32; 9; 13; 10]; [76; 50; 10]; [111; 10]] 1%nat [32; 9; 13; 10]).
  - left. reflexivity.
  - reflexivity.
  - repeat constructor.
Defined.

Lemma interleave_lookup_odd {A} (pairs : list (A * A)) (rest : list A) j :
  (length rest <= 1)%nat ->
  (interleave pairs ++ rest) !! (2 * j + 1)%nat = snd <$> pairs !! j.
Proof.
  intros Hrest. revert j. induction pairs as [|p pairs IH]; intros j.
  - cbn. rewrite lookup_ge_None_2 by lia. done.
  - destruct j as [|j]; [done|].
    replace (2 * S j + 1)%nat with (S (S (2 * j + 1))) by lia. cbn. apply IH.
Qed.

(** X13. For a file made of (label, text) entries, a label line followed
    by its text line, the texts are the stripped text lines of the entries,
    one per entry and in order; a last line without a partner is dropped
    without notice. *)
Theorem read_texts_of_entries (readlines : option string -> result (list (list Z)))
    (entries : list (list Z * list Z)) (rest : list (list Z)) :
  (readlines None = Ok (interleave entries ++ rest)
   \/ (readlines None = Raise "UnicodeDecodeError"
       /\ readlines (Some "gbk") = Ok (interleave entries ++ rest))) ->
  (length rest <= 1)%nat ->
  read_texts readlines = Ok ((fun e => strip e.2) <$> entries).
Proof.
  intros Hread Hrest. rewrite (read_texts_ok _ _ Hread). f_equal.
  destruct (slice_step_1_2 (strip <$> (interleave entries ++ rest))) as [_ Hat].
  apply list_eq. intros j.
  rewrite Hat, !list_lookup_fmap, interleave_lookup_odd by done.
  by destruct (entries !! j).
Qed.

Lemma read_texts_of_entries_witness :
  read_texts (fun _ => Ok (interleave [([76; 48; 10], [32; 104; 105; 10]);
                                       ([76; 49; 10], [111; 107; 10])]
                           ++ [[76; 50; 10]]))
  = Ok ((fun e => strip e.2) <$> [([76; 48; 10], [32; 104; 105; 10]);
                                   ([76; 49; 10], [111; 107; 10])]).
Proof.
  apply (read_texts_of_entries
           (fun _ => Ok (interleave [([76; 48; 10], [32; 104; 105; 10]);
                                     ([76; 49; 10], [111; 107; 10])]
                         ++ [[76; 50; 10]]))
           [([76; 48; 10], [32; 104; 105; 10]); ([76; 49; 10], [111; 107; 10])]
           [[76; 50; 10]]).
  - left. reflexivity.
  - cbn. lia.
Defined.

(** * Properties of main *)

Lemma read_texts_inv (readlines : option string -> result (list (list Z)))
    (texts : list (list Z)) :
  read_texts readlines = Ok texts ->
  exists sentences,
    read_sentences readlines = Ok sentences /\ texts = slice_step sentences 1 2.
Proof.
  unfold read_texts. destruct (read_sentences readlines) as [sentences|e]; [|done].
  cbn. intros [= <-]. eauto.
Qed.

Section main_facts.
Context {Time frame Model Namespace : Type}.
Context (time_sub : Time -> Time -> Time).
Context (cuda_synchronize : world Time -> world Time).
Context (time_is_zero : Time -> bool) (div_by_time : Z -> Time -> Time).
Context (torch_sort : list Z -> sort_result).
Context (text_to_sequence : list Z -> Z -> list string -> list Z).
Context (readlines : string -> option string -> result (list (list Z))).
Context (makedirs : string -> result unit).
Context (parse_tacotron2_args : Args -> result Namespace).
Context (ns_amp_run : Namespace -> bool).
Context (get_tacotron2_model : Namespace -> Z -> bool -> result Model).
Context (restore_checkpoint : Model -> string -> result Model).
Context (model_eval : Model -> Model).
Context (infer : Model -> list (list Z) -> list Z ->
                 stmt Time (list (list frame) * list Z)).
Context (randint_cuda : result (list (list Z))).

Local Abbreviation load_and_setup_model' :=
  (load_and_setup_model parse_tacotron2_args ns_amp_run get_tacotron2_model
     restore_checkpoint model_eval).
Local Abbreviation main' :=
  (main time_sub cuda_synchronize time_is_zero div_by_time torch_sort
     text_to_sequence readlines makedirs parse_tacotron2_args ns_amp_run
     get_tacotron2_model restore_checkpoint model_eval infer randint_cuda).

(** [main] from line 167 on, once the model is loaded and the sentences are
    read. *)
Lemma main_after_setup (args : Args) (r : @run Time frame) model texts :
  load_and_setup_model' args = Ok model ->
  include_warmup args = false ->
  read_texts (readlines (input_file args)) = Ok texts ->
  makedirs (output args) = Ok () ->
  main' args r
  = let w := World (clock (run_world r)) (grad_enabled (run_world r)) ∅ in
    match prepare_input_sequence torch_sort text_to_sequence texts
            (speaker_id args) with
    | Raise e => (Run w (run_files r) (run_log r), Raise e)
    | Ok (sequences, text_lengths, ids) =>
        match timed_infer time_sub cuda_synchronize
                (infer model sequences text_lengths) w with
        | (w, Raise e) => (Run w (run_files r) (run_log r), Raise e)
        | (w, Ok None) =>
            (Run w (run_files r) (run_log r), Raise "UnboundLocalError")
        | (w, Ok (Some (mels, mel_lengths))) =>
            match measurements w !! "tacotron2_time" with
            | None => (Run w (run_files r) (run_log r), Raise "KeyError")
            | Some t =>
                if time_is_zero t
                then (Run w (run_files r) (run_log r), Raise "ZeroDivisionError")
                else
                  let log :=
                    run_log r
                    ++ [("tacotron2_frames_per_sec",
                         div_by_time (mels_size_0_2 mels) t);
                        ("tacotron2_latency", t); ("latency", t)] in
                  match save_mels (output args) mels mel_lengths ids
                          (run_files r) with
                  | Raise e => (Run w (run_files r) log, Raise e)
                  | Ok files => (Run w files log, Ok ())
                  end
            end
        end
    end.
Proof.
  intros Hload Hwarm Hread Hdirs.
  apply read_texts_inv in Hread as (sentences & Hread & ->).
  unfold main, warmup. by rewrite Hload, Hwarm, Hread, Hdirs.
Qed.

(** X14. A run of [main] that ends in an exception has stored nothing:
    every file is as it was before.  The array is written by the last
    statement only. *)
Theorem main_failure_writes_nothing (args : Args) (r : @run Time frame) e :
  (main' args r).2 = Raise e ->
  run_files (main' args r).1 = run_files r.
Proof.
  unfold main.
  repeat (match goal with
          | |- context [match ?x with _ => _ end] => destruct x eqn:?
          end; cbn; try done).
Qed.



(** X17. An input file of fewer than two lines has no text line: [main]
    creates the output folder and then fails in [pad_sequences] with the
    [IndexError] of an empty batch, whatever the engine is; nothing is
    measured, logged or stored. *)
Theorem main_short_input_file (args : Args) (r : @run Time frame) model sentences :
  load_and_setup_model' args = Ok model ->
  include_warmup args = false ->
  read_sentences (readlines (input_file args)) = Ok sentences ->
  (length sentences < 2)%nat ->
  makedirs (output args) = Ok () ->
  sort_contract [] (torch_sort []) = true ->
  main' args r
  = (Run (World (clock (run_world r)) (grad_enabled (run_world r)) ∅)
       (run_files r) (run_log r),
     Raise "IndexError").
Proof.
  intros Hload Hwarm Hread Hshort Hdirs Hc.
  assert (slice_step sentences 1 2 = []) as Htexts.
  { apply length_zero_iff_nil.
    rewrite (proj1 (slice_step_1_2 sentences)). apply Nat.div_small. lia. }
  unfold main, warmup. rewrite Hload, Hwarm, Hread, Hdirs, Htexts.
  unfold prepare_input_sequence, pad_sequences. cbn [fmap list_fmap].
  destruct (torch_sort []) as [vals ids].
  apply sort_contract_ok, sort_ok_vals_length in Hc.
  destruct vals; [done|discriminate Hc].
Qed.


(** X19. A run in which every step succeeds: for the texts read from the
    input file (at least one) and an engine result of one mel and one valid
    length per text, [main] stores one array under [eval_mel.npy], the
    concatenation of the outputs in the order of the texts, logs the three
    metrics from the measured time, and returns.  Output [k] is the
    trimmed engine row of the batch position [p] that holds the padded
    encoding of text [k]. *)
Theorem main_end_to_end (args : Args) (r : @run Time frame) model texts
    sequences text_lengths ids w2 mels mel_lengths :
  load_and_setup_model' args = Ok model ->
  include_warmup args = false ->
  read_texts (readlines (input_file args)) = Ok texts ->
  makedirs (output args) = Ok () ->
  texts <> [] ->
  sort_contract
    (len <$> ((fun text => text_to_sequence text (speaker_id args)
                             ["basic_cleaners"]) <$> texts))
    (torch_sort
       (len <$> ((fun text => text_to_sequence text (speaker_id args)
                                ["basic_cleaners"]) <$> texts))) = true ->
  prepare_input_sequence torch_sort text_to_sequence texts (speaker_id args)
    = Ok (sequences, text_lengths, ids) ->
  infer model sequences text_lengths
    (cuda_synchronize (World (clock (run_world r)) false ∅))
    = (w2, Ok (mels, mel_lengths)) ->
  length mels = length texts ->
  length mel_lengths = length texts ->
  time_is_zero
    (time_sub (clock (cuda_synchronize w2))
       (clock (cuda_synchronize (World (clock (run_world r)) false ∅))))
    = false ->
  let w1 := cuda_synchronize (World (clock (run_world r)) false ∅) in
  let w3 := cuda_synchronize w2 in
  let t := time_sub (clock w3) (clock w1) in
  exists outs L_max,
    main' args r
    = (Run (World (clock w3) (grad_enabled (run_world r))
              (<["tacotron2_time" := t]> (measurements w3)))
         (<[os_path_join (output args) "eval_mel.npy" := concat outs]>
            (run_files r))
         (run_log r
          ++ [("tacotron2_frames_per_sec", div_by_time (mels_size_0_2 mels) t);
              ("tacotron2_latency", t); ("latency", t)]),
       Ok ())
    /\ length outs = length texts
    /\ text_lengths !! 0%nat = Some L_max
    /\ forall k text, texts !! k = Some text ->
         exists p mel n,
           ids !! p = Some k
           /\ sequences !! p
              = Some (padded L_max
                        (text_to_sequence text (speaker_id args)
                           ["basic_cleaners"]))
           /\ mels !! p = Some mel /\ mel_lengths !! p = Some n
           /\ outs !! k = Some (slice_to mel n).
Proof.
  intros Hload Hwarm Hread Hdirs Hne Hc Hprep Hinfer Hm Hl Hzero.
  set (encode := fun text =>
         text_to_sequence text (speaker_id args) ["basic_cleaners"]) in *.
  destruct (pad_sequences_ok torch_sort (encode <$> texts))
    as (seqs' & lens' & ids' & L & Hpad & _ & Hok & HL & Hlen & Hw & Hat);
    [by destruct texts|done|].
  unfold prepare_input_sequence in Hprep. fold encode in Hprep.
  rewrite Hpad in Hprep. injection Hprep as <- <- <-.
  pose proof (sort_ok_length _ _ _ Hok) as Hil. rewrite !length_fmap in Hil.
  pose proof (sort_ok_perm _ _ _ Hok) as Hperm.
  destruct (unpack_ok mels mel_lengths ids' Hperm) as (outs & Hun & Hol & Hout);
    [congruence..|].
  exists outs, L. cbn zeta. split_and!; [|congruence|done|].
  - rewrite (main_after_setup args r model texts) by done.
    cbn zeta. unfold prepare_input_sequence. fold encode.
    rewrite Hpad, timed_infer_eq. cbn zeta.
    cbn [clock measurements grad_enabled]. rewrite Hinfer.
    cbn [fst snd]. rewrite lookup_insert_eq, Hzero.
    unfold save_mels. rewrite Hun. cbn.
    destruct outs; [|done]. destruct texts; [done|cbn in *; lia].
  - intros k text Hk.
    assert (k ∈ ids') as Hin.
    { eapply sort_ok_onto; [done|]. rewrite !length_fmap. by eapply lookup_lt_Some. }
    apply list_elem_of_lookup in Hin as [p Hp].
    destruct (Hout p k Hp) as (mel & n & Hmel & Hn & Hk').
    exists p, mel, n. split_and!; try done.
    apply (Hat p k (encode text) Hp). by rewrite list_lookup_fmap, Hk.
Qed.
(** X20. When the measured time of a successful inference is exactly
    zero, the throughput division raises [ZeroDivisionError]: [main] ends
    there, with the measurement kept but nothing logged and the engine
    result not stored. *)
Theorem main_zero_duration (args : Args) (r : @run Time frame) model texts
    sequences text_lengths ids w2 mels mel_lengths :
  load_and_setup_model' args = Ok model ->
  include_warmup args = false ->
  read_texts (readlines (input_file args)) = Ok texts ->
  makedirs (output args) = Ok () ->
  prepare_input_sequence torch_sort text_to_sequence texts (speaker_id args)
    = Ok (sequences, text_lengths, ids) ->
  infer model sequences text_lengths
    (cuda_synchronize (World (clock (run_world r)) false ∅))
    = (w2, Ok (mels, mel_lengths)) ->
  time_is_zero
    (time_sub (clock (cuda_synchronize w2))
       (clock (cuda_synchronize (World (clock (run_world r)) false ∅))))
    = true ->
  let w1 := cuda_synchronize (World (clock (run_world r)) false ∅) in
  let w3 := cuda_synchronize w2 in
  main' args r
  = (Run (World (clock w3) (grad_enabled (run_world r))
            (<["tacotron2_time" := time_sub (clock w3) (clock w1)]>
               (measurements w3)))
       (run_files r) (run_log r),
     Raise "ZeroDivisionError").
Proof.
  intros Hload Hwarm Hread Hdirs Hprep Hinfer Hzero.
  rewrite (main_after_setup args r model texts) by done.
  cbn zeta. rewrite Hprep, timed_infer_eq. cbn zeta.
  cbn [clock measurements grad_enabled]. rewrite Hinfer.
  cbn [fst snd]. by rewrite lookup_insert_eq, Hzero.
Qed.
End main_facts.

Example sample_main_ex :
  sample_main echo_infer default_args sample_run
  = (Run (World 142 true {[ "tacotron2_time" := 41 ]})
       {[ "outputs/eval_mel.npy" := [104; 105; 111] ]}
       [("tacotron2_frames_per_sec", 4 / 41); ("tacotron2_latency", 41);
        ("latency", 41)],
     Ok ()).
Proof. reflexivity. Qed.

Lemma main_failure_writes_nothing_witness :
  run_files (sample_main failing_infer default_args sample_run).1
  = run_files sample_run.
Proof.
  unfold sample_main.
  apply (main_failure_writes_nothing Z.sub tick (Z.eqb 0) Z.div sort_desc_stable
           (fun text _ _ => text) sample_readlines (fun _ => Ok ())
           (fun args => Ok args) amp_run (fun _ _ _ => Ok ())
           (fun model _ => Ok model) (fun model => model) failing_infer
           (Ok [[0]]) default_args sample_run "RuntimeError").
  reflexivity.
Defined.



Lemma main_short_input_file_witness :
  sample_main echo_infer (args_with "label.txt" false false) sample_run
  = (Run (World 100 true ∅) ∅ [], Raise "IndexError").
Proof.
  unfold sample_main.
  apply (main_short_input_file Z.sub tick (Z.eqb 0) Z.div sort_desc_stable
           (fun text _ _ => text) sample_readlines (fun _ => Ok ())
           (fun args => Ok args) amp_run (fun _ _ _ => Ok ())
           (fun model _ => Ok model) (fun model => model) echo_infer
           (Ok [[0]]) (args_with "label.txt" false false) sample_run ()
           [[76; 48]]); try reflexivity.
  cbn. lia.
Defined.


Lemma main_end_to_end_witness :
  exists outs L_max,
    sample_main echo_infer default_args sample_run
    = (Run (World 142 true (<["tacotron2_time" := 41]> ∅))
         (<[os_path_join "outputs" "eval_mel.npy" := concat outs]> ∅)
         ([] ++ [("tacotron2_frames_per_sec",
                  mels_size_0_2 [[104; 105]; [111; 0]] / 41);
                 ("tacotron2_latency", 41); ("latency", 41)]),
       Ok ())
    /\ length outs = length [[104; 105]; [111]]
    /\ [2; 1] !! 0%nat = Some L_max
    /\ forall k text, [[104; 105]; [111]] !! k = Some text ->
         exists p mel n,
           [0; 1]%nat !! p = Some k
           /\ [[104; 105]; [111; 0]] !! p = Some (padded L_max text)
           /\ [[104; 105]; [111; 0]] !! p = Some mel /\ [2; 1] !! p = Some n
           /\ outs !! k = Some (slice_to mel n).
Proof.
  unfold sample_main.
  apply (main_end_to_end Z.sub tick (Z.eqb 0) Z.div sort_desc_stable
           (fun text _ _ => text) sample_readlines (fun _ => Ok ())
           (fun args => Ok args) amp_run (fun _ _ _ => Ok ())
           (fun model _ => Ok model) (fun model => model) echo_infer
           (Ok [[0]]) default_args sample_run () [[104; 105]; [111]]
           [[104; 105]; [111; 0]] [2; 1] [0; 1]%nat (World 141 true ∅)
           [[104; 105]; [111; 0]] [2; 1]); reflexivity || discriminate.
Defined.

Lemma main_zero_duration_witness :
  main Z.sub (fun w => w) (Z.eqb 0) Z.div sort_desc_stable
    (fun text _ _ => text) sample_readlines (fun _ => Ok ())
    (fun args => Ok args) amp_run (fun _ _ _ => Ok ())
    (fun model _ => Ok model) (fun model => model)
    (fun _ sequences text_lengths w => (w, Ok (sequences, text_lengths)))
    (Ok [[0]]) default_args sample_run
  = (Run (World 100 true (<["tacotron2_time" := 100 - 100]> ∅)) ∅ [],
     Raise "ZeroDivisionError").
Proof.
  apply (main_zero_duration Z.sub (fun w => w) (Z.eqb 0) Z.div sort_desc_stable
           (fun text _ _ => text) sample_readlines (fun _ => Ok ())
           (fun args => Ok args) amp_run (fun _ _ _ => Ok ())
           (fun model _ => Ok model) (fun model => model)
           (fun _ sequences text_lengths w => (w, Ok (sequences, text_lengths)))
           (Ok [[0]]) default_args sample_run () [[104; 105]; [111]]
           [[104; 105]; [111; 0]] [2; 1] [0; 1]%nat (World 100 false ∅)
           [[104; 105]; [111; 0]] [2; 1]); reflexivity.
Defined.

(** * What the sort leaves open, and what the rows leave open *)

Lemma sorted_desc_Permutation_eq (l l' : list Z) :
  sorted_desc l = true -> sorted_desc l' = true -> l ≡ₚ l' -> l = l'.
Proof.
  revert l'. induction l as [|x l IH]; intros l' Hs Hs' Hp.
  - by apply Permutation_nil_l in Hp.
  - destruct l' as [|y l']; [by apply Permutation_nil_r in Hp|].
    apply sorted_desc_cons in Hs as [Hx Hs].
    apply sorted_desc_cons in Hs' as [Hy Hs'].
    assert (x = y) as ->.
    { assert (x ∈ y :: l') as Hin by (rewrite <- Hp; left).
      assert (y ∈ x :: l) as Hin' by (rewrite Hp; left).
      apply elem_of_cons in Hin as [->|Hin]; [done|].
      apply elem_of_cons in Hin' as [->|Hin']; [done|].
      specialize (Hx y Hin'). specialize (Hy x Hin). lia. }
    f_equal. apply IH; [done..|]. by apply Permutation_cons_inv in Hp.
Qed.

(** With pairwise distinct elements the contract leaves the sort one
    result. *)
Lemma sort_ok_unique t vals ids vals' ids' :
  NoDup t -> sort_ok t vals ids -> sort_ok t vals' ids' ->
  vals = vals' /\ ids = ids'.
Proof.
  intros Hnd H H'.
  assert (vals = vals') as <-.
  { apply sorted_desc_Permutation_eq; [apply H|apply H'|].
    rewrite (gather_Permutation t vals ids),
      (gather_Permutation t vals' ids');
      eauto using sort_ok_ids_Permutation, sort_ok_values_fmap. }
  split; [done|].
  apply list_eq_same_length with (length t); [apply H'|apply H|].
  intros p i i' Hp Hi Hi'.
  pose proof (sort_ok_values _ _ _ H _ _ Hi) as Hv.
  pose proof (sort_ok_values _ _ _ H' _ _ Hi') as Hv'.
  assert (i < length t)%nat as Hlt.
  { eapply sort_ok_bound; [exact H|]. by eapply list_elem_of_lookup_2. }
  apply lookup_lt_is_Some in Hlt as [x Hx].
  eapply NoDup_lookup; [done..|]. congruence.
Qed.

(** X21. When the sequences have pairwise distinct lengths, the batch does
    not depend on the sorting routine: any two results of the sort that
    keep its contract give the same rows, lengths and permutation.  Ties
    between equal lengths are all that the sort leaves open. *)
Theorem pad_sequences_distinct_lengths torch_sort torch_sort'
    (sequences : list (list Z)) :
  NoDup (len <$> sequences) ->
  sort_contract (len <$> sequences) (torch_sort (len <$> sequences)) = true ->
  sort_contract (len <$> sequences) (torch_sort' (len <$> sequences)) = true ->
  pad_sequences torch_sort sequences = pad_sequences torch_sort' sequences.
Proof.
  intros Hnd Hc Hc'. unfold pad_sequences.
  destruct (torch_sort (len <$> sequences)) as [vals ids].
  destruct (torch_sort' (len <$> sequences)) as [vals' ids'].
  apply sort_contract_ok in Hc, Hc'.
  by destruct (sort_ok_unique _ _ _ _ _ Hnd Hc Hc') as [<- <-].
Qed.

Lemma pad_sequences_distinct_lengths_witness :
  pad_sequences sort_desc_stable [[1; 2]; [3]; [4; 5; 6]; []]
  = pad_sequences sort_desc_ties_reversed [[1; 2]; [3]; [4; 5; 6]; []].
Proof.
  apply (pad_sequences_distinct_lengths sort_desc_stable sort_desc_ties_reversed
           [[1; 2]; [3]; [4; 5; 6]; []]).
  - apply (bool_decide_unpack _). vm_compute. exact I.
  - vm_compute. reflexivity.
  - vm_compute. reflexivity.
Defined.

Lemma sort_contract_two (r : sort_result) (a b : Z) :
  b < a -> sort_contract [a; b] r = true -> r = ([a; b], [0; 1]%nat).
Proof.
  intros Hab Hc. destruct r as [vals ids].
  assert (NoDup [a; b]) as Hnd.
  { repeat constructor; [|inversion 1]. intros Hin.
    apply list_elem_of_singleton in Hin. lia. }
  pose proof (sort_desc_stable_contract [a; b]) as Hst.
  assert (sort_desc_stable [a; b] = ([a; b], [0; 1]%nat)) as Heq.
  { unfold sort_desc_stable, sort_desc_with. cbn.
    by destruct (Z.ltb_spec a b); [lia|]. }
  rewrite Heq in Hst. apply sort_contract_ok in Hc, Hst.
  by destruct (sort_ok_unique _ _ _ _ _ Hnd Hc Hst) as [-> ->].
Qed.

(** X22. The rows do not tell a trailing pad-valued token from padding:
    next to a longer sequence [t], the sequences [s] and [s ++ [0]] are
    packed into the same rows with the same permutation, and only the
    length vector differs. *)
Theorem pad_sequences_trailing_zero torch_sort (s t : list Z) :
  len s + 1 < len t ->
  sort_contract [len t; len s] (torch_sort [len t; len s]) = true ->
  sort_contract [len t; len s + 1] (torch_sort [len t; len s + 1]) = true ->
  exists texts ids,
    pad_sequences torch_sort [t; s] = Ok (texts, [len t; len s], ids)
    /\ pad_sequences torch_sort [t; s ++ [0]]
       = Ok (texts, [len t; len s + 1], ids).
Proof.
  intros Hlt Hc Hc'.
  apply sort_contract_two in Hc; [|lia]. apply sort_contract_two in Hc'; [|lia].
  assert (len (s ++ [0]) = len s + 1) as Hlen.
  { unfold len. rewrite length_app. cbn. lia. }
  exists [t; padded (len t) s], [0; 1]%nat.
  unfold pad_sequences. cbn [fmap list_fmap]. rewrite Hlen, Hc, Hc'.
  cbn. unfold np_pad. rewrite Hlen.
  destruct (Z.ltb_spec (len t - len t) 0); [lia|].
  destruct (Z.ltb_spec (len t - len s) 0); [lia|].
  destruct (Z.ltb_spec (len t - (len s + 1)) 0); [lia|]. cbn.
  rewrite Z.sub_diag. cbn. rewrite app_nil_r.
  assert (length (s ++ replicate (Z.to_nat (len t - len s)) 0) = length t) as Hrow.
  { rewrite length_app, length_replicate. unfold len in *. lia. }
  assert ((s ++ [0]) ++ replicate (Z.to_nat (len t - (len s + 1))) 0
          = s ++ replicate (Z.to_nat (len t - len s)) 0) as ->.
  { rewrite <- app_assoc. f_equal.
    replace (Z.to_nat (len t - len s))
      with (S (Z.to_nat (len t - (len s + 1)))) by lia.
    done. }
  rewrite Nat.eqb_refl, Hrow, Nat.eqb_refl. done.
Qed.

Lemma pad_sequences_trailing_zero_witness :
  exists texts ids,
    pad_sequences sort_desc_stable [[1; 2; 3; 4]; [5]]
      = Ok (texts, [len [1; 2; 3; 4]; len [5]], ids)
    /\ pad_sequences sort_desc_stable [[1; 2; 3; 4]; [5] ++ [0]]
       = Ok (texts, [len [1; 2; 3; 4]; len [5] + 1], ids).
Proof.
  apply (pad_sequences_trailing_zero sort_desc_stable [5] [1; 2; 3; 4]).
  - reflexivity.
  - vm_compute. reflexivity.
  - vm_compute. reflexivity.
Defined.
